(** * htl: a parser and serializer for a simplified html variant

    Shallow embedding of package [htl] of honr/vulcan
    ([(a :href http://foo "body")] becomes [<a href="http://foo">body</a>])
    together with the properties of its parser and of [Node.String].

    Modelling conventions.
    - A Go [string] is modelled by the sequence of code points that
      [for _, r := range s] yields, a [list Z]; [string(r)] is the one-rune
      string [[r]], [s += x] is [s ++ x], the empty string is [[]].  Comparison
      of Go strings is bytewise; on UTF-8 this is the lexicographic order of
      the code points, [string_lt] below.
    - [*Node] values are addresses into an explicit heap ([list Node],
      address = index, allocation at the end), because the parser keeps a
      node reachable from its parent's [content] and from [ps.stack] at the
      same time and mutates it through the stack.  [nil] is [None].
    - A run-time panic (nil dereference, index out of range) is the outer
      [None] of a result; the [nil] [eatFn] is the inner [None].
    - [fmt.Errorf] values are kept as the tuple of their arguments. *)

From Stdlib Require Import String Ascii ZArith Lia.
From stdpp Require Import gmap list sorting.

Local Open Scope Z_scope.

(** ** Go strings as rune sequences *)

Abbreviation rune := Z (only parsing).
Abbreviation gostring := (list Z) (only parsing).
Abbreviation ptr := nat (only parsing).

(** Code points of an ASCII literal. *)
Fixpoint runes (s : string) : gostring :=
  match s with
  | EmptyString => []
  | String c s' => Z.of_nat (nat_of_ascii c) :: runes s'
  end.

(** Go's [a < b] on strings. *)
Fixpoint string_lt (a b : gostring) : bool :=
  match a, b with
  | _, [] => false
  | [], _ :: _ => true
  | x :: a', y :: b' =>
      if x <? y then true else if y <? x then false else string_lt a' b'
  end.

(** [unicode.IsSpace] of the Go standard library: the Latin-1 switch, then
    the [White_Space] range table. *)
Definition unicode_IsSpace (r : rune) : bool :=
  if (0 <=? r) && (r <=? 255) then
    (9 <=? r) && (r <=? 13) || (r =? 32) || (r =? 133) || (r =? 160)
  else
    (r =? 5760) || (8192 <=? r) && (r <=? 8202) || (r =? 8232) || (r =? 8233)
    || (r =? 8239) || (r =? 8287) || (r =? 12288).

(** ** Constants *)

Definition maxStackDepth : nat := 256.

Definition openParenRune : rune := 40.
Definition closeParenRune : rune := 41.
Definition quoteRune : rune := 34.
Definition escapingRune : rune := 92.
Definition keywordStartRune : rune := 58.
Definition commentStartRune : rune := 59.
Definition newLineRune : rune := 10.

Definition degenerateTags : gmap gostring Z :=
  list_to_map [(runes "br", 1); (runes "hr", 1); (runes "link", 1);
               (runes "img", 1); (runes "meta", 1)].

Definition htmlEscapeRuneMap : gmap Z gostring :=
  list_to_map [(60, runes "&lt;"); (62, runes "&gt;"); (38, runes "&amp;");
               (39, runes "&apos;"); (34, runes "&quot;")].

Definition htmlEscapeRune (r : rune) : gostring :=
  match htmlEscapeRuneMap !! r with
  | Some rs => rs
  | None => [r]
  end.

Definition backslashUnescapeThenHtmlEscape (r : rune) : gostring :=
  if r =? 102 then [12]
  else if r =? 110 then [10]
  else if r =? 114 then [13]
  else if r =? 116 then [9]
  else if r =? 118 then [11]
  else htmlEscapeRune r.

(** ** Tree model *)

Inductive NodeType := ElementNode | TextNode.

Record Node := mkNode {
  kind : NodeType;
  tag : gostring;
  attr : gmap gostring gostring;
  content : list ptr
}.

Abbreviation Heap := (list Node) (only parsing).

Global Instance NodeType_eq_dec : EqDecision NodeType.
Proof. solve_decision. Defined.

Definition NewNode (k : NodeType) (t : gostring) (h : Heap) : ptr * Heap :=
  (length h, h ++ [mkNode k t ∅ []]).

(** In-place updates of the node behind a pointer; [None] on [nil] or a
    dangling pointer. *)
Definition modify (p : option ptr) (f : Node -> Node) (h : Heap) : option Heap :=
  a ← p; n ← h !! a; Some (<[a := f n]> h).

Definition set_tag (s : gostring) (n : Node) : Node :=
  mkNode (kind n) s (attr n) (content n).
Definition set_attr (k v : gostring) (n : Node) : Node :=
  mkNode (kind n) (tag n) (<[k := v]> (attr n)) (content n).
Definition append_content (c : ptr) (n : Node) : Node :=
  mkNode (kind n) (tag n) (attr n) (content n ++ [c]).

(** ** Parser state *)

Inductive contextType :=
| contextDefault
| contextTag
| contextAfterTag
| contextAttrKey
| contextAfterAttrKey
| contextAttrValue
| contextContent.

Global Instance contextType_eq_dec : EqDecision contextType.
Proof. solve_decision. Defined.

Record ParseState := mkParseState {
  context : contextType;
  token : gostring;
  key : gostring;
  escapingBackslash : bool;
  stack : list ptr
}.

Definition set_context (c : contextType) (ps : ParseState) : ParseState :=
  mkParseState c (token ps) (key ps) (escapingBackslash ps) (stack ps).
Definition set_token (t : gostring) (ps : ParseState) : ParseState :=
  mkParseState (context ps) t (key ps) (escapingBackslash ps) (stack ps).
Definition set_key (k : gostring) (ps : ParseState) : ParseState :=
  mkParseState (context ps) (token ps) k (escapingBackslash ps) (stack ps).
Definition set_escapingBackslash (b : bool) (ps : ParseState) : ParseState :=
  mkParseState (context ps) (token ps) (key ps) b (stack ps).
Definition set_stack (s : list ptr) (ps : ParseState) : ParseState :=
  mkParseState (context ps) (token ps) (key ps) (escapingBackslash ps) s.

(** The four [eatFn] values of the package; the [nil] [eatFn] is [None]. *)
Inductive eatFn := EatAir | EatSymbol | EatString | EatComment.

Global Instance eatFn_eq_dec : EqDecision eatFn.
Proof. solve_decision. Defined.

(** What one call of an [eatFn] leaves behind: the next [eatFn] (or [nil]),
    the heap and the parse state; [None] when the call panics. *)
Abbreviation eaten := (option (option eatFn * Heap * ParseState)) (only parsing).

Definition error (s : gostring) (h : Heap) (ps : ParseState) : eaten :=
  Some (None, h, set_token s ps).

Definition currentNode (ps : ParseState) : option ptr := last (stack ps).

Definition flushToken (ps : ParseState) : gostring * ParseState :=
  (token ps, set_token [] ps).

Definition commit (h : Heap) (ps : ParseState) : option (Heap * ParseState) :=
  match context ps with
  | contextTag =>
      let '(s, ps1) := flushToken ps in
      h1 ← modify (currentNode ps) (set_tag s) h;
      Some (h1, ps1)
  | contextAttrKey =>
      let '(s, ps1) := flushToken ps in
      Some (h, set_key s ps1)
  | contextAttrValue =>
      let k := key ps in
      let ps1 := set_key [] ps in
      let '(s, ps2) := flushToken ps1 in
      h1 ← modify (currentNode ps) (set_attr k s) h;
      Some (h1, ps2)
  | contextContent =>
      let node := currentNode ps in
      let '(s, ps1) := flushToken ps in
      let '(c, h1) := NewNode TextNode s h in
      h2 ← modify node (append_content c) h1;
      Some (h2, ps1)
  | _ => Some (h, ps)
  end.

Definition push (h : Heap) (ps : ParseState) : eaten :=
  let '(newNode, h1) := NewNode ElementNode [] h in
  let parent := currentNode ps in
  if (maxStackDepth <=? length (stack ps))%nat then
    error (runes "tree too deep") h1 ps
  else
    let ps1 := set_stack (stack ps ++ [newNode]) ps in
    h2 ← match parent with
         | Some _ => modify parent (append_content newNode) h1
         | None => Some h1
         end;
    Some (Some EatSymbol, h2, set_context contextTag ps1).

Definition pop (h : Heap) (ps : ParseState) : eaten :=
  if (1 <? length (stack ps))%nat then
    let ps1 := set_stack (take (length (stack ps) - 1) (stack ps)) ps in
    Some (Some EatAir, h, set_context contextDefault ps1)
  else
    error (runes "unexpected closing paren") h ps.

(** ** The eat functions *)

Definition eatAir (r : rune) (h : Heap) (ps : ParseState) : eaten :=
  if r =? openParenRune then
    if decide (context ps = contextAfterAttrKey) then
      error (runes "unexpected open paren") h ps
    else push h ps
  else if r =? closeParenRune then
    if decide (context ps = contextAfterAttrKey) then
      error (runes "unexpected close paren") h ps
    else pop h ps
  else if r =? quoteRune then
    if decide (context ps = contextAfterAttrKey) then
      Some (Some EatString, h, set_context contextAttrValue ps)
    else
      Some (Some EatString, h, set_context contextContent ps)
  else if r =? commentStartRune then
    Some (Some EatComment, h, ps)
  else if r =? keywordStartRune then
    if decide (context ps = contextAfterTag) then
      Some (Some EatSymbol, h, set_context contextAttrKey ps)
    else error (runes "unexpect character") h ps
  else if r =? escapingRune then
    error (runes "backslash-escaping not allowed here") h ps
  else if unicode_IsSpace r then
    Some (Some EatAir, h, ps)
  else
    let ps1 := set_token (token ps ++ [r]) ps in
    if decide (context ps1 = contextAfterAttrKey) then
      Some (Some EatSymbol, h, set_context contextAttrValue ps1)
    else
      Some (Some EatSymbol, h, set_context contextContent ps1).

Definition eatSymbol (r : rune) (h : Heap) (ps : ParseState) : eaten :=
  if r =? openParenRune then
    if decide (context ps = contextAttrKey) then
      error (runes "unexpected open paren") h ps
    else
      '(h1, ps1) ← commit h ps;
      push h1 ps1
  else if r =? closeParenRune then
    if decide (context ps = contextAttrKey) then
      error (runes "unexpected close paren") h ps
    else
      '(h1, ps1) ← commit h ps;
      pop h1 ps1
  else if r =? quoteRune then
    '(h1, ps1) ← commit h ps;
    if decide (context ps1 = contextAttrKey) then
      Some (Some EatString, h1, set_context contextAttrValue ps1)
    else
      Some (Some EatString, h1, set_context contextContent ps1)
  else if r =? escapingRune then
    error (runes "backslash-escaping is not allowed here") h ps
  else if unicode_IsSpace r then
    '(h1, ps1) ← commit h ps;
    if decide (context ps1 = contextAttrKey) then
      Some (Some EatAir, h1, set_context contextAfterAttrKey ps1)
    else
      Some (Some EatAir, h1, set_context contextAfterTag ps1)
  else
    Some (Some EatSymbol, h, set_token (token ps ++ [r]) ps).

Definition eatString (r : rune) (h : Heap) (ps : ParseState) : eaten :=
  if escapingBackslash ps then
    let ps1 := set_escapingBackslash false ps in
    Some (Some EatString, h,
          set_token (token ps1 ++ backslashUnescapeThenHtmlEscape r) ps1)
  else if r =? quoteRune then
    '(h1, ps1) ← commit h ps;
    if decide (context ps1 = contextAttrValue) then
      Some (Some EatAir, h1, set_context contextAfterTag ps1)
    else
      Some (Some EatAir, h1, set_context contextDefault ps1)
  else if r =? escapingRune then
    Some (Some EatString, h, set_escapingBackslash true ps)
  else
    Some (Some EatString, h, set_token (token ps ++ htmlEscapeRune r) ps).

Definition eatComment (r : rune) (h : Heap) (ps : ParseState) : eaten :=
  if r =? newLineRune then Some (Some EatAir, h, ps)
  else Some (Some EatComment, h, ps).

(** [eater(r, &ps)]: calling a non-nil [eatFn] value. *)
Definition call (eater : eatFn) : rune -> Heap -> ParseState -> eaten :=
  match eater with
  | EatAir => eatAir
  | EatSymbol => eatSymbol
  | EatString => eatString
  | EatComment => eatComment
  end.

(** ** Parse *)

(** The two [fmt.Errorf] values of [Parse], by their arguments: the rune
    error carries the rune, the line, the column and [ps.token]; the stack
    error carries [len(ps.stack)-1]. *)
Inductive ParseError :=
| RuneError (r : rune) (lineNumber columnNumber : Z) (msg : gostring)
| StackError (missing : nat).

(** How the [for _, r := range rawInput] loop is left: by the [return] in
    its body, or at the end of the input with the loop variables. *)
Inductive loopExit :=
| LoopReturn (h : Heap) (err : ParseError)
| LoopEnd (eater : eatFn) (h : Heap) (ps : ParseState)
          (lineNumber columnNumber : Z).

Fixpoint Parse_loop (rawInput : gostring) (eater : eatFn) (h : Heap)
    (ps : ParseState) (lineNumber columnNumber : Z) : option loopExit :=
  match rawInput with
  | [] => Some (LoopEnd eater h ps lineNumber columnNumber)
  | r :: rest =>
      '(eater1, h1, ps1) ← call eater r h ps;
      let '(lineNumber1, columnNumber1) :=
        if r =? newLineRune then (lineNumber + 1, 0)
        else (lineNumber, columnNumber + 1) in
      match eater1 with
      | None =>
          Some (LoopReturn h1 (RuneError r lineNumber1 columnNumber1 (token ps1)))
      | Some eater2 => Parse_loop rest eater2 h1 ps1 lineNumber1 columnNumber1
      end
  end.

(** The state [Parse] enters its loop with: the heap holding [rootNode]
    and the fresh [ParseState]. *)
Definition Parse_start : Heap * ParseState :=
  let '(rootNode, h) := NewNode ElementNode [] [] in
  (h, mkParseState contextDefault [] [] false ([] ++ [rootNode])).

Definition Parse_run (rawInput : gostring) : option loopExit :=
  Parse_loop rawInput EatAir Parse_start.1 Parse_start.2 1 0.

(** [Parse] returns the final heap with Go's two results. *)
Definition Parse (rawInput : gostring)
    : option (Heap * option ptr * option ParseError) :=
  if decide (rawInput = []) then Some ([], None, None)
  else
    out ← Parse_run rawInput;
    match out with
    | LoopReturn h err => Some (h, None, Some err)
    | LoopEnd _ h ps _ _ =>
        if (1 <? length (stack ps))%nat then
          Some (h, None, Some (StackError (length (stack ps) - 1)))
        else
          root ← stack ps !! 0%nat;
          Some (h, Some root, None)
    end.

(** ** Serializer *)

(** [stringSlice.Less] and [sort.Sort(stringSlice(attrKeys))]: the library
    sort is any algorithm that orders by [Less]; merge sort here. *)
Definition Less (a : list gostring) (i j : nat) : option bool :=
  x ← a !! i; y ← a !! j; Some (string_lt x y).

Definition string_le (x y : gostring) : Prop := string_lt y x = false.

Global Instance string_le_dec : RelDecision string_le.
Proof. intros x y. unfold string_le. apply _. Defined.

Definition sort_Sort (a : list gostring) : list gostring :=
  merge_sort string_le a.

(** [for k, _ := range t.attr { attrKeys = append(attrKeys, k) }] *)
Definition attrKeys_of (m : gmap gostring gostring) : list gostring :=
  (map_to_list m).*1.

(** The loop over [attrKeys] that appends, for each key [k], a space, [k],
    an equals sign and [t.attr[k]] between double quotes; a missing key reads
    as the empty string, as in Go. *)
Definition appendAttrs (m : gmap gostring gostring) (ks : list gostring)
    (s : gostring) : gostring :=
  foldl (fun s k => s ++ ((((runes " " ++ k) ++ [61; quoteRune]) ++ default [] (m !! k))
                           ++ [quoteRune])) s ks.

(** [for _, c := range t.content { s += c.String() }] *)
Fixpoint appendAll (f : ptr -> option gostring) (cs : list ptr) (s : gostring)
    : option gostring :=
  match cs with
  | [] => Some s
  | c :: cs' => x ← f c; appendAll f cs' (s ++ x)
  end.

(** [(t *Node) String()].  The recursion follows pointers, so it is bounded
    by [fuel]; [None] is out of fuel or a dangling pointer. *)
Fixpoint Node_String (fuel : nat) (h : Heap) (t : option ptr) : option gostring :=
  match t with
  | None => Some []
  | Some p =>
      match fuel with
      | O => None
      | S fuel' =>
          n ← h !! p;
          match kind n with
          | TextNode =>
              if decide (tag n = runes "_") then Some (runes "&nbsp;")
              else Some (tag n)
          | ElementNode =>
              if decide (tag n = []) then
                appendAll (fun c => Node_String fuel' h (Some c)) (content n) []
              else
                let s := runes "<" ++ tag n in
                let attrKeys := sort_Sort (attrKeys_of (attr n)) in
                let s := appendAttrs (attr n) attrKeys s in
                if decide (length (content n) = 0%nat) then
                  match degenerateTags !! tag n with
                  | Some _ => Some (s ++ runes "/>")
                  | None => Some (s ++ ((runes "></" ++ tag n) ++ runes ">"))
                  end
                else
                  let s := s ++ runes ">" in
                  s ← appendAll (fun c => Node_String fuel' h (Some c)) (content n) s;
                  Some (s ++ ((runes "</" ++ tag n) ++ runes ">"))
          end
      end
  end.

(** [Parse(x).String()] as the tests call it: render the returned pointer
    in the returned heap, with the heap's size as fuel. *)
Definition Parse_String (rawInput : gostring) : option gostring :=
  '(h, t, _) ← Parse rawInput;
  Node_String (S (length h)) h t.

(** ** The test table of the package *)

(** The cases of [TestParse], input and wanted rendering. *)
Definition TestParse_cases : list (gostring * gostring) :=
  let q := [quoteRune] in
  [ ([], []);
    (runes "(a :href http://foo.bar/{{user}} " ++ q ++ [50504; 45397] ++ q ++ runes ")",
     runes "<a href=" ++ q ++ runes "http://foo.bar/{{user}}" ++ q ++ runes ">"
       ++ [50504; 45397] ++ runes "</a>");
    (runes "(a :href foo)", runes "<a href=" ++ q ++ runes "foo" ++ q ++ runes "></a>");
    (runes "(br)", runes "<br/>");
    (runes "(a :href foo )", runes "<a href=" ++ q ++ runes "foo" ++ q ++ runes "></a>");
    (runes "(a b)", runes "<a>b</a>");
    (runes "(a b(c d))", runes "<a>b<c>d</c></a>");
    (runes "(a (b (c)))", runes "<a><b><c></c></b></a>");
    (runes "(a(b(c)))", runes "<a><b><c></c></b></a>");
    (runes "(a(b(c))", []);
    (runes "(a(b(c))))", []);
    (runes "(a " ++ q ++ runes "x\ty\nz" ++ q ++ runes ")",
     runes "<a>x" ++ [9] ++ runes "y" ++ [10] ++ runes "z</a>");
    (runes "(a :x 1 (b :z 2 :y 3 (c " ++ q ++ runes "foo bar" ++ q ++ runes " "
       ++ q ++ runes "baz" ++ q ++ runes ")))",
     runes "<a x=" ++ q ++ runes "1" ++ q ++ runes "><b y=" ++ q ++ runes "3" ++ q
       ++ runes " z=" ++ q ++ runes "2" ++ q ++ runes "><c>foo barbaz</c></b></a>");
    (runes "(a :x " ++ q ++ runes "\\<>'\" ++ q ++ q ++ runes " " ++ q
       ++ runes "content" ++ q ++ runes ")",
     runes "<a x=" ++ q ++ runes "\&lt;&gt;&apos;&quot;" ++ q ++ runes ">content</a>");
    (runes "(a ;comments" ++ [10] ++ runes " :x ;comments" ++ [10] ++ q
       ++ runes "\\<>'\" ++ q ++ q ++ runes " ;comments " ++ [10] ++ q
       ++ runes "content" ++ q ++ runes ")",
     runes "<a x=" ++ q ++ runes "\&lt;&gt;&apos;&quot;" ++ q ++ runes ">content</a>");
    (runes "(a " ++ q ++ runes "b" ++ q ++ runes " ; " ++ q ++ runes "c" ++ q ++ [10]
       ++ runes " ;; " ++ q ++ runes "d" ++ q ++ [10] ++ runes ")",
     runes "<a>b</a>") ].

(** [TestParse]: the cases for which [t.Errorf] is called. *)
Definition TestParse : list (gostring * gostring) :=
  filter (fun c => Parse_String c.1 <> Some c.2) TestParse_cases.

(** ** Package static *)

(** A [Resource]; the bytes of [Content] are kept as the runes of the
    string they convert to. *)
Record Resource := mkResource {
  ContentType : gostring;
  Content : gostring
}.

(** The two kinds of error [ResourceFromFile] returns. *)
Inductive ResourceError :=
| ReadError (e : gostring)
| HtlError (e : ParseError).

(** [htlToHTML], with [mime.TypeByExtension] as a parameter: the resource
    after the call and the error. *)
Definition htlToHTML (TypeByExtension : gostring -> gostring) (r : Resource)
    : option (Resource * option ResourceError) :=
  '(h, n, err) ← Parse (Content r);
  match err with
  | Some e => Some (r, Some (HtlError e))
  | None =>
      s ← Node_String (S (length h)) h n;
      Some (mkResource (TypeByExtension (runes ".html")) s, None)
  end.

Definition transformers (TypeByExtension : gostring -> gostring)
    : gmap gostring (Resource -> option (Resource * option ResourceError)) :=
  {[ runes ".htl" := htlToHTML TypeByExtension ]}.

(** [filepath.Ext] (Unix): the suffix from the last dot of the last path
    element, scanning from the end. *)
Fixpoint Ext_scan (reversed acc : gostring) : gostring :=
  match reversed with
  | [] => []
  | c :: rest =>
      if c =? 47 then []
      else if c =? 46 then c :: acc
      else Ext_scan rest (c :: acc)
  end.

Definition filepath_Ext (path : gostring) : gostring := Ext_scan (reverse path) [].

(** [ResourceFromFile], with [ioutil.ReadFile] and [mime.TypeByExtension]
    as parameters. *)
Definition ResourceFromFile (ReadFile : gostring -> gostring + gostring)
    (TypeByExtension : gostring -> gostring) (filename : gostring)
    : option (option Resource * option ResourceError) :=
  match ReadFile filename with
  | inr err => Some (None, Some (ReadError err))
  | inl content =>
      let ext := filepath_Ext filename in
      let resource := mkResource (TypeByExtension ext) content in
      match transformers TypeByExtension !! ext with
      | Some f =>
          '(resource1, err) ← f resource;
          match err with
          | Some e => Some (None, Some e)
          | None => Some (Some resource1, None)
          end
      | None => Some (Some resource, None)
      end
  end.

(** * Vocabulary of the properties *)

(** ** Well-formed heaps and stacks *)

(** Children are allocated after their parent and inside the heap: the
    pointer graph is a forest, with no dangling pointer. *)
Definition heap_wf (h : Heap) : Prop :=
  forall i n, h !! i = Some n ->
    Forall (fun c => (i < c < length h)%nat) (content n).

(** The stack is never empty, never above the cap, holds live pointers and
    has the root (address 0) at its bottom. *)
Definition stack_wf (h : Heap) (ps : ParseState) : Prop :=
  (1 <= length (stack ps) <= maxStackDepth)%nat /\
  Forall (fun p => (p < length h)%nat) (stack ps) /\
  stack ps !! 0%nat = Some 0%nat.

(** ** Strings stored in the tree *)

(** Every string the heap stores (tags, text payloads, attribute keys and
    values) satisfies [P]. *)
Definition strings_ok (P : gostring -> Prop) (h : Heap) : Prop :=
  Forall (fun n => P (tag n) /\
                   map_Forall (fun k v => P k /\ P v) (attr n)) h.

(** ** Where the stored strings come from *)

(** The runes the default case of [eatSymbol] appends. *)
Definition is_symbol_rune (r : rune) : bool :=
  negb (r =? openParenRune) && negb (r =? closeParenRune) &&
  negb (r =? quoteRune) && negb (r =? escapingRune) &&
  negb (unicode_IsSpace r).

(** The text a quoted literal denotes, read off its body rune by rune: the
    text so far and whether a backslash is pending. *)
Definition lit_step (st : gostring * bool) (r : rune) : gostring * bool :=
  if st.2 then (st.1 ++ backslashUnescapeThenHtmlEscape r, false)
  else if r =? escapingRune then (st.1, true)
  else (st.1 ++ htmlEscapeRune r, false).

Definition literal (body : gostring) : gostring * bool :=
  foldl lit_step ([], false) body.

(** [s] is a run of the input, copied rune for rune. *)
Definition verbatim (input s : gostring) : Prop :=
  exists l1 l2, input = l1 ++ s ++ l2.

(** [s] is a bare token of the input. *)
Definition bare (input s : gostring) : Prop :=
  verbatim input s /\ Forall (fun r => is_symbol_rune r = true) s.

(** [s] is the text of a quoted literal of the input. *)
Definition quoted (input s : gostring) : Prop :=
  exists l1 body l2,
    input = l1 ++ [quoteRune] ++ body ++ [quoteRune] ++ l2 /\
    literal body = (s, false).

Definition origin (input s : gostring) : Prop := bare input s \/ quoted input s.

(** What holds of the token buffer under each [eatFn], after [consumed]. *)
Definition lex_inv (consumed : gostring) (e : eatFn) (ps : ParseState) : Prop :=
  match e with
  | EatAir | EatComment => token ps = [] /\ escapingBackslash ps = false
  | EatSymbol =>
      (context ps = contextTag \/ context ps = contextAttrKey \/
       context ps = contextAttrValue \/ context ps = contextContent) /\
      escapingBackslash ps = false /\
      (exists l, consumed = l ++ token ps) /\
      Forall (fun r => is_symbol_rune r = true) (token ps)
  | EatString =>
      (context ps = contextAttrValue \/ context ps = contextContent) /\
      exists l body, consumed = l ++ [quoteRune] ++ body /\
                     literal body = (token ps, escapingBackslash ps)
  end.

(** The invariant of the loop of [Parse]. *)
Record Inv (consumed : gostring) (e : eatFn) (h : Heap) (ps : ParseState)
    : Prop := mkInv {
  inv_heap : heap_wf h;
  inv_stack : stack_wf h ps;
  inv_lex : lex_inv consumed e ps;
  inv_strings : strings_ok (origin consumed) h;
  inv_key : origin consumed (key ps)
}.

(** ** The claims that fail, as they are stated *)

(** A closing paren met with only the root on the stack fails with the
    message of [pop]. *)
Definition closing_paren_at_root_says_closing : Prop :=
  forall pre rest e h ps ln col,
    Parse_run pre = Some (LoopEnd e h ps ln col) ->
    length (stack ps) = 1%nat ->
    e = EatAir \/ e = EatSymbol ->
    exists h',
      Parse (pre ++ closeParenRune :: rest) =
        Some (h', None,
              Some (RuneError closeParenRune ln (col + 1)
                      (runes "unexpected closing paren"))).

(** Every string of a tree parsed from an input without quotes is free of
    parens, quotes, backslashes, spaces and semicolons. *)
Definition bare_tokens_exclude_semicolon : Prop :=
  forall input h t,
    quoteRune ∉ input -> Parse input = Some (h, Some t, None) ->
    strings_ok (Forall (fun r => is_symbol_rune r = true /\ r <> commentStartRune)) h.

(** An input that ends inside a quoted literal is an error. *)
Definition unterminated_string_is_error : Prop :=
  forall input h ps ln col,
    Parse_run input = Some (LoopEnd EatString h ps ln col) ->
    exists h' err, Parse input = Some (h', None, Some err).

(** A single bare token becomes the single text child of the root and
    renders as itself. *)
Definition single_token_becomes_text_child : Prop :=
  forall c cs,
    is_symbol_rune c = true -> c <> commentStartRune -> c <> keywordStartRune ->
    Forall (fun r => is_symbol_rune r = true) cs ->
    exists h root child,
      Parse (c :: cs) = Some (h, Some root, None) /\
      h !! root = Some (mkNode ElementNode [] ∅ [child]) /\
      h !! child = Some (mkNode TextNode (c :: cs) ∅ []) /\
      Parse_String (c :: cs) = Some (c :: cs).

(** ** Vocabulary of the further properties *)

(** One turn of the line and column counters of [Parse]. *)
Definition advance (pos : Z * Z) (r : rune) : Z * Z :=
  if r =? newLineRune then (pos.1 + 1, 0) else (pos.1, pos.2 + 1).

(** What [Parse(x).String()] makes of an exit of the loop. *)
Definition exit_String (out : loopExit) : option gostring :=
  match out with
  | LoopReturn _ _ => Some []
  | LoopEnd _ h ps _ _ =>
      if (1 <? length (stack ps))%nat then Some []
      else root ← stack ps !! 0%nat; Node_String (S (length h)) h (Some root)
  end.

(** A rune that is none of [<], [>], ['] and the double quote. *)
Definition markup_free (r : rune) : Prop :=
  r <> 60 /\ r <> 62 /\ r <> 39 /\ r <> 34.

(** The seven diagnostics [ps.error] is called with. *)
Definition diagnostics : list gostring :=
  [runes "tree too deep"; runes "unexpected closing paren";
   runes "unexpected open paren"; runes "unexpected close paren";
   runes "unexpect character"; runes "backslash-escaping not allowed here";
   runes "backslash-escaping is not allowed here"].

(** The kinds of the nodes: the stack holds elements, text nodes are leaves
    without attributes, the root is the element with the empty tag, and a
    tag is only ever being read for a node above the root. *)
Record Kinds (h : Heap) (ps : ParseState) : Prop := mkKinds {
  kinds_stack :
    Forall (fun p => exists n, h !! p = Some n /\ kind n = ElementNode) (stack ps);
  kinds_text :
    Forall (fun n => kind n = TextNode -> content n = [] /\ attr n = ∅) h;
  kinds_root : exists n, h !! 0%nat = Some n /\ kind n = ElementNode /\ tag n = [];
  kinds_nodup : NoDup (stack ps);
  kinds_tag : context ps = contextTag -> (2 <= length (stack ps))%nat
}.

Arguments push : simpl never.
Arguments pop : simpl never.
Arguments commit : simpl never.

(** * Properties *)

(** Case analysis on the rune comparisons of a [switch]. *)
Ltac case_rune :=
  match goal with
  | |- context [Z.eqb ?a ?b] => destruct (Z.eqb_spec a b); try lia
  end.

(** ** The two character tables *)

Lemma htmlEscapeRune_table (r : rune) :
  htmlEscapeRune r =
    if r =? 60 then runes "&lt;"
    else if r =? 62 then runes "&gt;"
    else if r =? 38 then runes "&amp;"
    else if r =? 39 then runes "&apos;"
    else if r =? 34 then runes "&quot;"
    else [r].
Proof.
  unfold htmlEscapeRune, htmlEscapeRuneMap. cbn [list_to_map foldr fst snd curry].
  rewrite !lookup_insert, lookup_empty.
  repeat case_decide; subst; try reflexivity.
  by repeat case_rune.
Qed.

Lemma htmlEscapeRune_other (r : rune) :
  r <> 60 -> r <> 62 -> r <> 38 -> r <> 39 -> r <> 34 -> htmlEscapeRune r = [r].
Proof. intros. rewrite htmlEscapeRune_table. by repeat case_rune. Qed.

(** ** Well-formed heaps and stacks *)

Lemma heap_wf_alloc (h : Heap) k t :
  heap_wf h -> heap_wf (h ++ [mkNode k t ∅ []]).
Proof.
  intros Hwf i n Hi. rewrite length_app. cbn [length].
  apply lookup_app_Some in Hi as [Hi|[_ Hi]].
  - eapply Forall_impl; [exact (Hwf _ _ Hi)|]. cbn. lia.
  - apply list_lookup_singleton_Some in Hi as [_ <-]. constructor.
Qed.

Lemma heap_wf_insert (h : Heap) p n' :
  heap_wf h -> (p < length h)%nat ->
  Forall (fun c => (p < c < length h)%nat) (content n') ->
  heap_wf (<[p := n']> h).
Proof.
  intros Hwf Hp Hn' i n Hi. rewrite length_insert.
  destruct (decide (p = i)) as [->|Hne].
  - rewrite list_lookup_insert_eq in Hi by done. by injection Hi as <-.
  - rewrite list_lookup_insert_ne in Hi by done. eauto.
Qed.

Lemma currentNode_lt (h : Heap) ps p :
  Forall (fun p => (p < length h)%nat) (stack ps) ->
  currentNode ps = Some p -> (p < length h)%nat.
Proof.
  unfold currentNode. intros Hall Hlast.
  rewrite Forall_forall in Hall. apply Hall.
  rewrite last_lookup in Hlast. by eapply list_elem_of_lookup_2.
Qed.

Lemma currentNode_is_Some ps :
  (1 <= length (stack ps))%nat -> is_Some (currentNode ps).
Proof.
  unfold currentNode. destruct (stack ps) as [|x l] using rev_ind; cbn; [lia|].
  intros _. rewrite last_snoc. eauto.
Qed.

Lemma modify_Some_inv p f (h h' : Heap) :
  modify p f h = Some h' ->
  exists a n, p = Some a /\ h !! a = Some n /\ h' = <[a := f n]> h.
Proof.
  unfold modify. destruct p as [a|]; cbn; [|done].
  destruct (h !! a) as [n|] eqn:E; cbn; [|done].
  intros [= <-]. eauto.
Qed.

Lemma modify_is_Some a f (h : Heap) :
  (a < length h)%nat -> is_Some (modify (Some a) f h).
Proof.
  intros Ha. unfold modify. cbn.
  destruct (lookup_lt_is_Some_2 h a Ha) as [n ->]. cbn. eauto.
Qed.

(** ** What [commit], [push] and [pop] do on a well-formed state *)

Lemma stack_wf_current (h : Heap) ps :
  stack_wf h ps ->
  exists p n, currentNode ps = Some p /\ h !! p = Some n /\ (p < length h)%nat.
Proof.
  intros (Hlen & Hall & _).
  destruct (currentNode_is_Some ps) as [p Hp]; [lia|].
  pose proof (currentNode_lt h ps p Hall Hp) as Hlt.
  destruct (lookup_lt_is_Some_2 h p Hlt) as [n Hn]. eauto.
Qed.

Lemma commit_cases (h : Heap) ps p n :
  currentNode ps = Some p -> h !! p = Some n ->
  commit h ps = Some
    match context ps with
    | contextTag => (<[p := set_tag (token ps) n]> h, set_token [] ps)
    | contextAttrKey => (h, set_key (token ps) (set_token [] ps))
    | contextAttrValue =>
        (<[p := set_attr (key ps) (token ps) n]> h, set_token [] (set_key [] ps))
    | contextContent =>
        (<[p := append_content (length h) n]> (h ++ [mkNode TextNode (token ps) ∅ []]),
         set_token [] ps)
    | _ => (h, ps)
    end.
Proof.
  intros Hp Hn. unfold commit, flushToken, NewNode, modify.
  destruct (context ps); cbn; rewrite ?Hp; cbn; rewrite ?Hn; cbn; try done.
  by rewrite (lookup_app_l_Some _ _ _ _ Hn).
Qed.

Lemma push_cases (h : Heap) ps p n :
  currentNode ps = Some p -> h !! p = Some n ->
  push h ps =
    if (maxStackDepth <=? length (stack ps))%nat then
      Some (None, h ++ [mkNode ElementNode [] ∅ []],
            set_token (runes "tree too deep") ps)
    else
      Some (Some EatSymbol,
            <[p := append_content (length h) n]> (h ++ [mkNode ElementNode [] ∅ []]),
            set_context contextTag (set_stack (stack ps ++ [length h]) ps)).
Proof.
  intros Hp Hn. unfold push, NewNode, error, modify.
  destruct (maxStackDepth <=? length (stack ps))%nat; [done|].
  rewrite Hp. cbn. by rewrite (lookup_app_l_Some _ _ _ _ Hn).
Qed.

Lemma heap_wf_set_tag (h : Heap) p n s :
  heap_wf h -> h !! p = Some n -> heap_wf (<[p := set_tag s n]> h).
Proof.
  intros Hwf Hn.
  apply heap_wf_insert; [done | by eapply lookup_lt_Some | exact (Hwf _ _ Hn)].
Qed.

Lemma heap_wf_set_attr (h : Heap) p n k v :
  heap_wf h -> h !! p = Some n -> heap_wf (<[p := set_attr k v n]> h).
Proof.
  intros Hwf Hn.
  apply heap_wf_insert; [done | by eapply lookup_lt_Some | exact (Hwf _ _ Hn)].
Qed.

Lemma heap_wf_append_child (h : Heap) p n k t :
  heap_wf h -> h !! p = Some n ->
  heap_wf (<[p := append_content (length h) n]> (h ++ [mkNode k t ∅ []])).
Proof.
  intros Hwf Hn. pose proof (lookup_lt_Some _ _ _ Hn) as Hlt.
  apply heap_wf_insert.
  - by apply heap_wf_alloc.
  - rewrite length_app. cbn. lia.
  - cbn. rewrite length_app. cbn [length]. apply Forall_app. split.
    + eapply Forall_impl; [exact (Hwf _ _ Hn)|]. cbn. lia.
    + repeat constructor; lia.
Qed.

Lemma Forall_lt_mono (l : list nat) (a b : nat) :
  (a <= b)%nat -> Forall (fun p => (p < a)%nat) l -> Forall (fun p => (p < b)%nat) l.
Proof. intros Hab Hl. eapply Forall_impl; [exact Hl|]. cbn. lia. Qed.

Lemma commit_wf (h h' : Heap) ps ps' :
  heap_wf h -> stack_wf h ps -> commit h ps = Some (h', ps') ->
  heap_wf h' /\ stack_wf h' ps' /\
  stack ps' = stack ps /\ context ps' = context ps /\
  escapingBackslash ps' = escapingBackslash ps /\
  (context ps <> contextDefault -> context ps <> contextAfterTag ->
   context ps <> contextAfterAttrKey -> token ps' = []).
Proof.
  intros Hwf Hst Hc.
  destruct (stack_wf_current h ps Hst) as (p & n & Hp & Hn & Hlt).
  rewrite (commit_cases h ps p n Hp Hn) in Hc.
  destruct Hst as (Hlen & Hall & Hroot).
  unfold stack_wf.
  destruct (context ps) eqn:Hctx; injection Hc as <- <-; cbn;
    rewrite ?length_insert, ?length_app; cbn [length];
    repeat split; auto using heap_wf_set_tag, heap_wf_set_attr, heap_wf_append_child;
    try lia; try done.
  eapply Forall_lt_mono; [|done]. lia.
Qed.

Lemma commit_is_Some (h : Heap) ps : stack_wf h ps -> is_Some (commit h ps).
Proof.
  intros Hst. destruct (stack_wf_current h ps Hst) as (p & n & Hp & Hn & _).
  rewrite (commit_cases h ps p n Hp Hn). eauto.
Qed.

Lemma push_wf (h h' : Heap) ps ps' e :
  heap_wf h -> stack_wf h ps -> push h ps = Some (Some e, h', ps') ->
  heap_wf h' /\ stack_wf h' ps' /\ e = EatSymbol /\
  stack ps' = stack ps ++ [length h] /\ context ps' = contextTag /\
  token ps' = token ps /\ key ps' = key ps /\
  escapingBackslash ps' = escapingBackslash ps.
Proof.
  intros Hwf Hst Hpush.
  destruct (stack_wf_current h ps Hst) as (p & n & Hp & Hn & Hlt).
  rewrite (push_cases h ps p n Hp Hn) in Hpush.
  destruct (Nat.leb_spec maxStackDepth (length (stack ps))); [done|].
  injection Hpush as <- <- <-. destruct Hst as (Hlen & Hall & Hroot).
  unfold stack_wf. cbn. rewrite length_insert, !length_app. cbn [length].
  repeat split; auto using heap_wf_append_child; try lia.
  - apply Forall_app. split.
    + eapply Forall_lt_mono; [|done]. lia.
    + repeat constructor. lia.
  - by apply lookup_app_l_Some.
Qed.

Lemma push_is_Some (h : Heap) ps : stack_wf h ps -> is_Some (push h ps).
Proof.
  intros Hst. destruct (stack_wf_current h ps Hst) as (p & n & Hp & Hn & _).
  rewrite (push_cases h ps p n Hp Hn). destruct (_ <=? _)%nat; eauto.
Qed.

Lemma pop_wf (h h' : Heap) ps ps' e :
  heap_wf h -> stack_wf h ps -> pop h ps = Some (Some e, h', ps') ->
  h' = h /\ stack_wf h ps' /\ e = EatAir /\
  (1 < length (stack ps))%nat /\
  stack ps' = take (length (stack ps) - 1) (stack ps) /\
  context ps' = contextDefault /\
  token ps' = token ps /\ key ps' = key ps /\
  escapingBackslash ps' = escapingBackslash ps.
Proof.
  intros Hwf (Hlen & Hall & Hroot). unfold pop, error.
  destruct (Nat.ltb_spec 1 (length (stack ps))); [|done].
  intros [= <- <- <-]. unfold stack_wf. cbn. rewrite length_take.
  repeat split; auto; try lia.
  - by apply Forall_take.
  - rewrite lookup_take_lt by lia. done.
Qed.

(** ** Predicates on the stored strings *)

Section stored_strings.
Variable P : gostring -> Prop.
Hypothesis P_nil : P [].

Lemma strings_ok_alloc (h : Heap) k t :
  strings_ok P h -> P t -> strings_ok P (h ++ [mkNode k t ∅ []]).
Proof.
  intros Hh Ht. apply Forall_app. split; [done|].
  apply Forall_singleton. split; [done|]. apply map_Forall_empty.
Qed.

Lemma strings_ok_insert (h : Heap) p n n' :
  strings_ok P h -> h !! p = Some n ->
  P (tag n') ->
  (map_Forall (fun k v => P k /\ P v) (attr n) ->
   map_Forall (fun k v => P k /\ P v) (attr n')) ->
  strings_ok P (<[p := n']> h).
Proof.
  intros Hh Hn Ht Ha. apply Forall_insert; [done|].
  split; [done|]. apply Ha.
  unfold strings_ok in Hh. rewrite Forall_lookup in Hh. by apply (Hh p n).
Qed.

Lemma strings_ok_lookup (h : Heap) p n :
  strings_ok P h -> h !! p = Some n ->
  P (tag n) /\ map_Forall (fun k v => P k /\ P v) (attr n).
Proof. unfold strings_ok. rewrite Forall_lookup. intros Hh Hn. by apply (Hh p n). Qed.

Lemma commit_strings (h h' : Heap) ps ps' :
  stack_wf h ps -> strings_ok P h -> P (token ps) -> P (key ps) ->
  commit h ps = Some (h', ps') ->
  strings_ok P h' /\ P (key ps').
Proof.
  intros Hst Hh Ht Hk Hc.
  destruct (stack_wf_current h ps Hst) as (p & n & Hp & Hn & Hlt).
  rewrite (commit_cases h ps p n Hp Hn) in Hc.
  destruct (strings_ok_lookup h p n Hh Hn) as [Htag Hattr].
  destruct (context ps); injection Hc as <- <-; cbn; split; try done.
  - by eapply strings_ok_insert.
  - eapply strings_ok_insert; [done..|]. cbn. intros _.
    by apply map_Forall_insert_2.
  - eapply strings_ok_insert; [by apply strings_ok_alloc| |done..].
    by apply lookup_app_l_Some.
Qed.

Lemma push_strings (h h' : Heap) ps ps' e :
  stack_wf h ps -> strings_ok P h ->
  push h ps = Some (Some e, h', ps') -> strings_ok P h'.
Proof.
  intros Hst Hh Hpush.
  destruct (stack_wf_current h ps Hst) as (p & n & Hp & Hn & Hlt).
  rewrite (push_cases h ps p n Hp Hn) in Hpush.
  destruct (_ <=? _)%nat; [done|]. injection Hpush as <- <- <-.
  destruct (strings_ok_lookup h p n Hh Hn) as [Htag Hattr].
  eapply strings_ok_insert; [by apply strings_ok_alloc| |done..].
  by apply lookup_app_l_Some.
Qed.
End stored_strings.

Lemma strings_ok_impl (P Q : gostring -> Prop) (h : Heap) :
  (forall s, P s -> Q s) -> strings_ok P h -> strings_ok Q h.
Proof.
  intros HPQ Hh. eapply Forall_impl; [exact Hh|]. intros n [Ht Ha]. split; [auto|].
  eapply map_Forall_impl; [exact Ha|]. cbn. intros k v [? ?]. auto.
Qed.

(** ** Origins *)

Lemma origin_nil (c : gostring) : origin c [].
Proof. left. split; [by exists [], c | constructor]. Qed.

Lemma origin_mono (c l s : gostring) : origin c s -> origin (c ++ l) s.
Proof.
  intros [[(l1 & l2 & ->) Hs]|(l1 & body & l2 & -> & Hlit)].
  - left. split; [|done]. exists l1, (l2 ++ l). by rewrite <- !app_assoc.
  - right. exists l1, body, (l2 ++ l). split; [|done]. by rewrite <- !app_assoc.
Qed.

Lemma literal_snoc (body : gostring) (r : rune) :
  literal (body ++ [r]) = lit_step (literal body) r.
Proof. unfold literal. by rewrite foldl_app. Qed.

(** ** The invariant is kept by every [eatFn] *)

Lemma is_symbol_rune_true r :
  r <> openParenRune -> r <> closeParenRune -> r <> quoteRune ->
  r <> escapingRune -> unicode_IsSpace r = false -> is_symbol_rune r = true.
Proof.
  intros. unfold is_symbol_rune.
  repeat case_rune. by rewrite H3.
Qed.

Lemma eatAir_Inv c r h ps e' h' ps' :
  Inv c EatAir h ps -> eatAir r h ps = Some (Some e', h', ps') ->
  Inv (c ++ [r]) e' h' ps'.
Proof.
  intros [Hwf Hst [Htok Hesc] Hstr Hkey] Heat.
  apply (strings_ok_impl _ _ _ (origin_mono c [r])) in Hstr.
  apply (origin_mono c [r]) in Hkey.
  unfold eatAir, error in Heat. revert Heat.
  repeat case_rune; repeat case_decide; try discriminate.
  - intros Hpush.
    destruct (push_wf _ _ _ _ _ Hwf Hst Hpush) as (? & ? & -> & ? & Hc & Ht & Hk & He).
    split; try done.
    + cbn. rewrite Hc, He, Ht, Htok. repeat split; auto. exists (c ++ [r]). by rewrite app_nil_r.
    + by eapply (push_strings _ (origin_nil _) h h' ps ps').
    + by rewrite Hk.
  - intros Hpop.
    destruct (pop_wf _ _ _ _ _ Hwf Hst Hpop) as (-> & ? & -> & ? & ? & Hc & Ht & Hk & He).
    split; try done.
    + cbn. by rewrite Ht, He.
    + by rewrite Hk.
  - intros [= <- <- <-]. split; try done. cbn. split; [auto|].
    exists c, []. subst. by rewrite Htok, Hesc.
  - intros [= <- <- <-]. split; try done. cbn. split; [auto|].
    exists c, []. subst. by rewrite Htok, Hesc.
  - intros [= <- <- <-]. by split.
  - intros [= <- <- <-]. split; try done. cbn. rewrite Htok.
    repeat split; auto. exists (c ++ [r]). by rewrite app_nil_r.
  - destruct (unicode_IsSpace r) eqn:Hsp.
    + intros [= <- <- <-]. by split.
    + intros [= <- <- <-]; (split; try done); cbn; rewrite Htok; cbn;
        (repeat split; auto; [by exists c | repeat constructor; by apply is_symbol_rune_true]).
  - destruct (unicode_IsSpace r) eqn:Hsp.
    + intros [= <- <- <-]. by split.
    + intros [= <- <- <-]; (split; try done); cbn; rewrite Htok; cbn;
        (repeat split; auto; [by exists c | repeat constructor; by apply is_symbol_rune_true]).
Qed.

Lemma origin_suffix_token c l t r :
  c = l ++ t -> Forall (fun r => is_symbol_rune r = true) t ->
  origin (c ++ [r]) t.
Proof.
  intros -> Ht. left. split; [|done]. exists l, [r]. by rewrite <- app_assoc.
Qed.

Lemma eatSymbol_Inv c r h ps e' h' ps' :
  Inv c EatSymbol h ps -> eatSymbol r h ps = Some (Some e', h', ps') ->
  Inv (c ++ [r]) e' h' ps'.
Proof.
  intros [Hwf Hst (Hctx & Hesc & [l Hl] & Hsym) Hstr Hkey] Heat.
  apply (strings_ok_impl _ _ _ (origin_mono c [r])) in Hstr.
  apply (origin_mono c [r]) in Hkey.
  pose proof (origin_suffix_token c l _ r Hl Hsym) as Htok.
  assert (Hcommit : forall h1 ps1, commit h ps = Some (h1, ps1) ->
            heap_wf h1 /\ stack_wf h1 ps1 /\ context ps1 = context ps /\
            escapingBackslash ps1 = false /\ token ps1 = [] /\
            strings_ok (origin (c ++ [r])) h1 /\ origin (c ++ [r]) (key ps1)).
  { intros h1 ps1 Hc.
    destruct (commit_wf _ _ _ _ Hwf Hst Hc) as (? & ? & ? & ? & He & Ht).
    destruct (commit_strings _ (origin_nil _) _ _ _ _ Hst Hstr Htok Hkey Hc).
    rewrite He. split_and!; try done.
    apply Ht; destruct Hctx as [-> | [-> | [-> | ->]]]; done. }
  unfold eatSymbol, error in Heat. revert Heat.
  repeat case_rune; repeat case_decide; try discriminate.
  - destruct (commit h ps) as [[h1 ps1]|] eqn:Hc; [cbn|done]. intros Hpush.
    destruct (Hcommit _ _ eq_refl) as (Hwf1 & Hst1 & Hc1 & He1 & Ht1 & Hs1 & Hk1).
    destruct (push_wf _ _ _ _ _ Hwf1 Hst1 Hpush) as (? & ? & -> & ? & Hc2 & Ht2 & Hk2 & He2).
    split; try done.
    + cbn. rewrite Hc2, He2, Ht2, Ht1. repeat split; auto.
      exists (c ++ [r]). by rewrite app_nil_r.
    + by eapply (push_strings _ (origin_nil _) h1 h' ps1 ps').
    + by rewrite Hk2.
  - destruct (commit h ps) as [[h1 ps1]|] eqn:Hc; [cbn|done]. intros Hpop.
    destruct (Hcommit _ _ eq_refl) as (Hwf1 & Hst1 & Hc1 & He1 & Ht1 & Hs1 & Hk1).
    destruct (pop_wf _ _ _ _ _ Hwf1 Hst1 Hpop) as (-> & ? & -> & ? & ? & Hc2 & Ht2 & Hk2 & He2).
    split; try done.
    + cbn. by rewrite Ht2, He2.
    + by rewrite Hk2.
  - destruct (commit h ps) as [[h1 ps1]|] eqn:Hc; [cbn|done].
    destruct (Hcommit _ _ eq_refl) as (Hwf1 & Hst1 & Hc1 & He1 & Ht1 & Hs1 & Hk1).
    case_decide; intros [= <- <- <-]; (split; try done); cbn; (split; [auto|]);
      exists c, []; subst; by rewrite Ht1, He1.
  - destruct (unicode_IsSpace r) eqn:Hsp.
    + destruct (commit h ps) as [[h1 ps1]|] eqn:Hc; [cbn|done].
      destruct (Hcommit _ _ eq_refl) as (Hwf1 & Hst1 & Hc1 & He1 & Ht1 & Hs1 & Hk1).
      case_decide; intros [= <- <- <-]; by split.
    + intros [= <- <- <-]. split; try done. cbn. repeat split; auto.
      * exists l. rewrite Hl. by rewrite <- app_assoc.
      * apply Forall_app. split; [done|].
        repeat constructor. by apply is_symbol_rune_true.
Qed.

Lemma eatString_Inv c r h ps e' h' ps' :
  Inv c EatString h ps -> eatString r h ps = Some (Some e', h', ps') ->
  Inv (c ++ [r]) e' h' ps'.
Proof.
  intros [Hwf Hst (Hctx & l & body & Hl & Hlit) Hstr Hkey] Heat.
  apply (strings_ok_impl _ _ _ (origin_mono c [r])) in Hstr.
  apply (origin_mono c [r]) in Hkey.
  assert (Hc' : c ++ [r] = l ++ [quoteRune] ++ (body ++ [r])).
  { rewrite Hl. by rewrite <- !app_assoc. }
  unfold eatString in Heat. revert Heat.
  destruct (escapingBackslash ps) eqn:Hesc.
  { intros [= <- <- <-]. split; try done. cbn. split; [done|].
    exists l, (body ++ [r]). split; [done|].
    rewrite literal_snoc, Hlit. reflexivity. }
  repeat case_rune.
  - destruct (commit h ps) as [[h1 ps1]|] eqn:Hc; [cbn|done].
    destruct (commit_wf _ _ _ _ Hwf Hst Hc) as (? & ? & ? & Hc1 & He & Ht).
    assert (Htok : origin (c ++ [r]) (token ps)).
    { right. exists l, body, []. split; [|done]. subst r. rewrite Hl.
      by rewrite <- !app_assoc. }
    destruct (commit_strings _ (origin_nil _) _ _ _ _ Hst Hstr Htok Hkey Hc).
    assert (token ps1 = []) by (apply Ht; destruct Hctx as [-> | ->]; done).
    case_decide; intros [= <- <- <-]; (split; try done); cbn; by rewrite He.
  - intros [= <- <- <-]. split; try done. cbn. split; [done|].
    exists l, (body ++ [r]). split; [done|].
    rewrite literal_snoc, Hlit. unfold lit_step. cbn. subst r. reflexivity.
  - intros [= <- <- <-]. split; try done. cbn. split; [done|].
    exists l, (body ++ [r]). split; [done|].
    rewrite literal_snoc, Hlit. unfold lit_step. cbn.
    destruct (Z.eqb_spec r escapingRune); [done|]. by rewrite Hesc.
Qed.

Lemma eatComment_Inv c r h ps e' h' ps' :
  Inv c EatComment h ps -> eatComment r h ps = Some (Some e', h', ps') ->
  Inv (c ++ [r]) e' h' ps'.
Proof.
  intros [Hwf Hst Hlex Hstr Hkey] Heat.
  apply (strings_ok_impl _ _ _ (origin_mono c [r])) in Hstr.
  apply (origin_mono c [r]) in Hkey.
  unfold eatComment in Heat. revert Heat.
  case_rune; intros [= <- <- <-]; by split.
Qed.

Lemma call_Inv c e r h ps e' h' ps' :
  Inv c e h ps -> call e r h ps = Some (Some e', h', ps') ->
  Inv (c ++ [r]) e' h' ps'.
Proof.
  destruct e; cbn;
    eauto using eatAir_Inv, eatSymbol_Inv, eatString_Inv, eatComment_Inv.
Qed.

Lemma pop_is_Some (h : Heap) ps : is_Some (pop h ps).
Proof. unfold pop, error. destruct (_ <? _)%nat; eauto. Qed.

Lemma call_is_Some c e r h ps : Inv c e h ps -> is_Some (call e r h ps).
Proof.
  intros [Hwf Hst Hlex Hstr Hkey].
  destruct (commit_is_Some h ps Hst) as [[h1 ps1] Hc].
  destruct (commit_wf _ _ _ _ Hwf Hst Hc) as (_ & Hst1 & _).
  destruct e; cbn; unfold eatAir, eatSymbol, eatString, eatComment, error;
    rewrite ?Hc; cbn;
    repeat first
      [ case_rune | case_decide
      | match goal with
        | |- context [unicode_IsSpace r] => destruct (unicode_IsSpace r)
        | |- context [escapingBackslash ps] => destruct (escapingBackslash ps)
        end ];
    eauto using push_is_Some, pop_is_Some.
Qed.

Lemma Parse_start_Inv : Inv [] EatAir Parse_start.1 Parse_start.2.
Proof.
  split; cbn; try done.
  - intros [|i] n; cbn; [|done]. intros [= <-]. constructor.
  - unfold stack_wf, maxStackDepth. cbn. split_and!; try done; try lia.
    repeat constructor.
  - apply Forall_singleton. split; [apply origin_nil | apply map_Forall_empty].
  - apply origin_nil.
Qed.

(** The loop never panics, and the invariant holds when it runs to the end
    of the input. *)
Lemma Parse_loop_Inv input : forall c e h ps ln col,
  Inv c e h ps ->
  exists out, Parse_loop input e h ps ln col = Some out /\
    match out with
    | LoopEnd e' h' ps' _ _ => Inv (c ++ input) e' h' ps'
    | LoopReturn _ _ => True
    end.
Proof.
  induction input as [|r rest IH]; intros c e h ps ln col HI; cbn.
  - eexists. split; [done|]. by rewrite app_nil_r.
  - destruct (call_is_Some c e r h ps HI) as [[[e1 h1] ps1] Hcall].
    rewrite Hcall. cbn.
    destruct e1 as [e2|].
    + pose proof (call_Inv _ _ _ _ _ _ _ _ HI Hcall) as HI'.
      destruct (r =? newLineRune);
        (edestruct (IH (c ++ [r])) as (out & -> & Hout); [exact HI'|]);
        exists out; (split; [done|]); by rewrite <- app_assoc in Hout.
    + destruct (r =? newLineRune); eexists; split; done.
Qed.

Lemma Parse_run_Inv input :
  exists out, Parse_run input = Some out /\
    match out with
    | LoopEnd e' h' ps' _ _ => Inv input e' h' ps'
    | LoopReturn _ _ => True
    end.
Proof. apply (Parse_loop_Inv input [] _ _ _ _ _ Parse_start_Inv). Qed.

Lemma Parse_loop_app a b : forall e h ps ln col,
  Parse_loop (a ++ b) e h ps ln col =
    out ← Parse_loop a e h ps ln col;
    match out with
    | LoopReturn _ _ => Some out
    | LoopEnd e' h' ps' ln' col' => Parse_loop b e' h' ps' ln' col'
    end.
Proof.
  induction a as [|r a IH]; intros e h ps ln col; cbn; [done|].
  destruct (call e r h ps) as [[[[e1|] h1] ps1]|]; cbn; try done.
  - destruct (r =? newLineRune); apply IH.
  - by destruct (r =? newLineRune).
Qed.

(** ** The parser *)

(** C7.  [Parse] of the empty string returns no tree and no error, rendering
    an absent tree gives the empty string (whatever the fuel and the heap),
    and so rendering the parse of the empty string gives the empty string. *)
Theorem empty_input_renders_empty :
  Parse [] = Some ([], None, None) /\
  (forall fuel h, Node_String fuel h None = Some []) /\
  Parse_String [] = Some [].
Proof. split_and!; try reflexivity. by intros [|fuel] h. Qed.

(** C2.  Inside a quoted literal with the escape pending, [eatString]
    appends the resolved rune and clears the flag: [f], [n], [r], [t], [v]
    resolve to form feed, newline, carriage return, tab and vertical tab,
    every other rune (backslash and double quote among them) goes through
    [htmlEscapeRune]. *)
Theorem eatString_escape_pending (r : rune) (h : Heap) (ps : ParseState) :
  escapingBackslash ps = true ->
  exists resolved,
    eatString r h ps =
      Some (Some EatString, h,
            mkParseState (context ps) (token ps ++ resolved) (key ps) false (stack ps)) /\
    ([r] = runes "f" -> resolved = [12]) /\
    ([r] = runes "n" -> resolved = [10]) /\
    ([r] = runes "r" -> resolved = [13]) /\
    ([r] = runes "t" -> resolved = [9]) /\
    ([r] = runes "v" -> resolved = [11]) /\
    (r ∉ runes "fnrtv" -> resolved = htmlEscapeRune r) /\
    (r = escapingRune -> resolved = [escapingRune]) /\
    (r = quoteRune -> resolved = runes "&quot;").
Proof.
  intros Hesc. exists (backslashUnescapeThenHtmlEscape r).
  split; [unfold eatString; by rewrite Hesc|].
  unfold backslashUnescapeThenHtmlEscape.
  split_and!; try (intros [= ->]; reflexivity); try (intros ->; reflexivity).
  intros Hnot. repeat case_rune; try done; subst; exfalso; apply Hnot; cbn; set_solver.
Qed.

Lemma eatString_escape_pending_witness :
  eatString 110 [] (mkParseState contextContent (runes "x") [] true [0%nat]) =
    Some (Some EatString, [],
          mkParseState contextContent (runes "x" ++ [10]) [] false [0%nat]).
Proof.
  destruct (eatString_escape_pending 110 []
              (mkParseState contextContent (runes "x") [] true [0%nat]) eq_refl)
    as (resolved & Heq & _ & Hn & _).
  rewrite Heq. by rewrite (Hn eq_refl).
Defined.

Lemma is_symbol_rune_inv r :
  is_symbol_rune r = true ->
  r <> openParenRune /\ r <> closeParenRune /\ r <> quoteRune /\
  r <> escapingRune /\ unicode_IsSpace r = false.
Proof.
  unfold is_symbol_rune. rewrite !andb_true_iff, !negb_true_iff.
  intros ((((?%Z.eqb_neq & ?%Z.eqb_neq) & ?%Z.eqb_neq) & ?%Z.eqb_neq) & ?). done.
Qed.

Lemma eatSymbol_default r h ps :
  is_symbol_rune r = true ->
  eatSymbol r h ps = Some (Some EatSymbol, h, set_token (token ps ++ [r]) ps).
Proof.
  intros (? & ? & ? & ? & Hsp)%is_symbol_rune_inv. unfold eatSymbol.
  repeat case_rune. by rewrite Hsp.
Qed.

Lemma eatAir_default r h ps :
  is_symbol_rune r = true -> r <> commentStartRune -> r <> keywordStartRune ->
  eatAir r h ps =
    Some (Some EatSymbol, h,
          set_context (if decide (context ps = contextAfterAttrKey)
                       then contextAttrValue else contextContent)
                      (set_token (token ps ++ [r]) ps)).
Proof.
  intros (? & ? & ? & ? & Hsp)%is_symbol_rune_inv ? ?. unfold eatAir.
  repeat case_rune. rewrite Hsp. cbn. by case_decide.
Qed.

Lemma Parse_Some_inv input h t err :
  Parse input = Some (h, t, err) ->
  input = [] /\ h = [] /\ t = None /\ err = None \/
  input <> [] /\
  ((exists e, Parse_run input = Some (LoopReturn h e) /\ t = None /\ err = Some e) \/
   (exists e ps ln col, Parse_run input = Some (LoopEnd e h ps ln col) /\
      Inv input e h ps /\
      ((1 < length (stack ps))%nat /\ t = None /\
         err = Some (StackError (length (stack ps) - 1)) \/
       length (stack ps) = 1%nat /\ t = Some 0%nat /\ err = None))).
Proof.
  unfold Parse. case_decide as Hin; [intros [= <- <- <-]; by left|].
  intros HP. right. split; [done|].
  destruct (Parse_run_Inv input) as (out & Hrun & Hout). rewrite Hrun in HP |- *.
  cbn [mbind option_bind] in HP. destruct out as [h1 e|e h1 ps ln col].
  - injection HP as <- <- <-. left. eauto.
  - right. exists e, ps, ln, col.
    destruct (inv_stack _ _ _ _ Hout) as (Hlen & ? & Hroot).
    destruct (1 <? length (stack ps))%nat eqn:Hlt.
    + apply Nat.ltb_lt in Hlt.
      injection HP as <- <- <-. split_and!; try done. by left.
    + apply Nat.ltb_ge in Hlt.
      rewrite Hroot in HP. cbn in HP. injection HP as <- <- <-.
      split_and!; try done. right. split_and!; try done. lia.
Qed.

(** C1.  An ordinary rune inside a quoted literal is appended through
    [htmlEscapeRune] (the five entities, every other rune unchanged); the
    default cases of [eatSymbol] and [eatAir] append the rune itself; and
    every string of a parsed tree is either a run of the input copied rune
    for rune or the text of a quoted literal of the input. *)
Theorem escaping_only_inside_quotes :
  (forall r h ps,
     escapingBackslash ps = false -> r <> quoteRune -> r <> escapingRune ->
     eatString r h ps =
       Some (Some EatString, h, set_token (token ps ++ htmlEscapeRune r) ps)) /\
  (htmlEscapeRune 60 = runes "&lt;" /\ htmlEscapeRune 62 = runes "&gt;" /\
   htmlEscapeRune 38 = runes "&amp;" /\ htmlEscapeRune 39 = runes "&apos;" /\
   htmlEscapeRune 34 = runes "&quot;" /\
   forall r, r ∉ [60; 62; 38; 39; 34] -> htmlEscapeRune r = [r]) /\
  (forall r h ps,
     is_symbol_rune r = true ->
     eatSymbol r h ps =
       Some (Some EatSymbol, h, set_token (token ps ++ [r]) ps)) /\
  (forall r h ps,
     is_symbol_rune r = true -> r <> commentStartRune -> r <> keywordStartRune ->
     exists c, eatAir r h ps =
       Some (Some EatSymbol, h, set_context c (set_token (token ps ++ [r]) ps))) /\
  (forall input h t,
     Parse input = Some (h, Some t, None) ->
     strings_ok (fun s => verbatim input s \/ quoted input s) h).
Proof.
  split_and!; try reflexivity.
  - intros r h ps Hesc Hq Hb. unfold eatString. rewrite Hesc. by repeat case_rune.
  - intros r Hr. apply htmlEscapeRune_other; intros ->; apply Hr; set_solver.
  - apply eatSymbol_default.
  - intros r h ps ? ? ?. eexists. by apply eatAir_default.
  - intros input h t
      [(_ & _ & ? & _)|(_ & [(e & _ & ? & _)|(e & ps & ln & col & _ & HI & _)])]%Parse_Some_inv;
      try done.
    eapply strings_ok_impl; [|exact (inv_strings _ _ _ _ HI)].
    intros s [[? _]| ?]; auto.
Qed.

Lemma escaping_only_inside_quotes_witness :
  let ps := mkParseState contextContent (runes "x") [] false [0%nat] in
  let input := runes "(a :k " ++ [quoteRune; 60; quoteRune] ++ runes " b<c)" in
  eatString 60 [] ps = Some (Some EatString, [], set_token (runes "x&lt;") ps) /\
  eatSymbol 60 [] ps = Some (Some EatSymbol, [], set_token (runes "x<") ps) /\
  (exists c, eatAir 60 [] ps =
     Some (Some EatSymbol, [], set_context c (set_token (runes "x<") ps))) /\
  exists h t, Parse input = Some (h, Some t, None) /\
    strings_ok (fun s => verbatim input s \/ quoted input s) h.
Proof.
  intros ps input.
  destruct escaping_only_inside_quotes as (Hstr & _ & Hsym & Hair & Htree).
  split_and!.
  - by apply (Hstr 60 [] ps).
  - by apply (Hsym 60 [] ps).
  - by apply (Hair 60 [] ps).
  - eexists _, _. split; [vm_compute; reflexivity|].
    apply (Htree input _ 0%nat). vm_compute. reflexivity.
Defined.

(** C9 as stated fails: [(a b;c)] parses to a text node holding [b;c]. *)
Lemma bare_token_with_semicolon : ~ bare_tokens_exclude_semicolon.
Proof.
  intros Hclaim.
  assert (HP : Parse (runes "(a b;c)") =
    Some ([mkNode ElementNode [] ∅ [1%nat]; mkNode ElementNode (runes "a") ∅ [2%nat];
           mkNode TextNode (runes "b;c") ∅ []], Some 0%nat, None))
    by (vm_compute; reflexivity).
  apply Hclaim in HP.
  - apply Forall_lookup_1 with (i := 2%nat) (x := mkNode TextNode (runes "b;c") ∅ []) in HP;
      [|done].
    destruct HP as [HP _]. cbn in HP.
    apply Forall_lookup_1 with (i := 1%nat) (x := 59) in HP; [|done].
    by destruct HP.
  - cbn. set_solver.
Qed.

Lemma quoted_has_quote input s : quoted input s -> quoteRune ∈ input.
Proof. intros (l1 & body & l2 & -> & _). set_solver. Qed.

(** C9, amended.  The token [eatSymbol] accumulates, and every string of a
    tree parsed from an input without quotes, holds no paren, no double
    quote, no backslash and no space; a semicolon met by [eatSymbol] is
    appended to the token like any other rune. *)
Theorem bare_tokens_are_symbol_runs (input : gostring) :
  (forall e h ps ln col,
     Parse_run input = Some (LoopEnd e h ps ln col) -> e = EatSymbol ->
     Forall (fun r => r <> openParenRune /\ r <> closeParenRune /\
                      r <> quoteRune /\ r <> escapingRune /\
                      unicode_IsSpace r = false) (token ps)) /\
  (forall h t,
     quoteRune ∉ input -> Parse input = Some (h, Some t, None) ->
     strings_ok (Forall (fun r => r <> openParenRune /\ r <> closeParenRune /\
                                  r <> quoteRune /\ r <> escapingRune /\
                                  unicode_IsSpace r = false)) h) /\
  (forall h ps,
     eatSymbol commentStartRune h ps =
       Some (Some EatSymbol, h, set_token (token ps ++ [commentStartRune]) ps)).
Proof.
  split_and!.
  - intros e h ps ln col Hrun ->.
    destruct (Parse_run_Inv input) as (out & Hrun' & HI).
    rewrite Hrun in Hrun'. injection Hrun' as <-.
    destruct (inv_lex _ _ _ _ HI) as (_ & _ & _ & Hsym).
    eapply Forall_impl; [exact Hsym|]. apply is_symbol_rune_inv.
  - intros h t Hq
      [(_ & _ & ? & _)|(_ & [(e & _ & ? & _)|(e & ps & ln & col & _ & HI & _)])]%Parse_Some_inv;
      try done.
    eapply strings_ok_impl; [|exact (inv_strings _ _ _ _ HI)].
    intros s [[_ Hs]|Hs%quoted_has_quote]; [|done].
    eapply Forall_impl; [exact Hs|]. apply is_symbol_rune_inv.
  - intros h ps. by apply eatSymbol_default.
Qed.

Lemma bare_tokens_are_symbol_runs_witness :
  let input := runes "(a b;c" in
  Forall (fun r => r <> openParenRune /\ r <> closeParenRune /\
                   r <> quoteRune /\ r <> escapingRune /\
                   unicode_IsSpace r = false) (runes "b;c").
Proof.
  intros input.
  destruct (bare_tokens_are_symbol_runs input) as (Htok & _).
  destruct (Parse_run input) as [[|e h ps ln col]|] eqn:Hrun; try by vm_compute in Hrun.
  assert (e = EatSymbol /\ token ps = runes "b;c") as [He Ht].
  { vm_compute in Hrun. by injection Hrun as <- _ <- _ _. }
  rewrite <- Ht. by apply (Htok e h ps ln col).
Defined.

Lemma Parse_run_app a b :
  Parse_run (a ++ b) =
    out ← Parse_run a;
    match out with
    | LoopReturn _ _ => Some out
    | LoopEnd e' h' ps' ln' col' => Parse_loop b e' h' ps' ln' col'
    end.
Proof. apply Parse_loop_app. Qed.

(** A [nil] [eatFn] ends [Parse] with the rune error. *)
Lemma Parse_abort pre r rest e h ps ln col h' ps' :
  Parse_run pre = Some (LoopEnd e h ps ln col) ->
  call e r h ps = Some (None, h', ps') ->
  Parse (pre ++ r :: rest) =
    Some (h', None,
          Some (RuneError r (if r =? newLineRune then ln + 1 else ln)
                            (if r =? newLineRune then 0 else col + 1)
                            (token ps'))).
Proof.
  intros Hrun Hcall. unfold Parse.
  case_decide as Hnil; [by destruct pre|].
  rewrite Parse_run_app, Hrun. cbn. rewrite Hcall. cbn.
  by destruct (r =? newLineRune).
Qed.

Lemma Parse_run_reach input e h ps ln col :
  Parse_run input = Some (LoopEnd e h ps ln col) -> Inv input e h ps.
Proof.
  intros Hrun. destruct (Parse_run_Inv input) as (out & Hrun' & HI).
  rewrite Hrun in Hrun'. by injection Hrun' as <-.
Qed.

(** C6.  [push] fails with "tree too deep" when the stack holds 256 entries
    (or more); with fewer it allocates the new element, appends it as the
    last child of the stack top and pushes it.  So the stack of every
    reachable state holds between 1 and 256 frames, and an open paren met at
    256 frames ends [Parse] with that error. *)
Theorem push_depth_cap :
  (forall h ps,
     (256 <= length (stack ps))%nat ->
     exists h', push h ps = Some (None, h', set_token (runes "tree too deep") ps)) /\
  (forall h ps p n,
     (length (stack ps) < 256)%nat ->
     currentNode ps = Some p -> h !! p = Some n ->
     push h ps =
       Some (Some EatSymbol,
             <[p := mkNode (kind n) (tag n) (attr n) (content n ++ [length h])]>
               (h ++ [mkNode ElementNode [] ∅ []]),
             mkParseState contextTag (token ps) (key ps) (escapingBackslash ps)
                          (stack ps ++ [length h]))) /\
  (forall input e h ps ln col,
     Parse_run input = Some (LoopEnd e h ps ln col) ->
     (1 <= length (stack ps) <= 256)%nat) /\
  (forall pre rest e h ps ln col,
     Parse_run pre = Some (LoopEnd e h ps ln col) ->
     length (stack ps) = 256%nat ->
     e = EatAir /\ context ps <> contextAfterAttrKey \/
     e = EatSymbol /\ context ps <> contextAttrKey ->
     exists h',
       Parse (pre ++ openParenRune :: rest) =
         Some (h', None,
               Some (RuneError openParenRune ln (col + 1) (runes "tree too deep")))).
Proof.
  split_and!.
  - intros h ps Hlen. unfold push, NewNode, error.
    destruct (Nat.leb_spec maxStackDepth (length (stack ps))) as [_|Hlt]; [eauto|].
    unfold maxStackDepth in Hlt. lia.
  - intros h ps p n Hlen Hp Hn. rewrite (push_cases h ps p n Hp Hn).
    destruct (Nat.leb_spec maxStackDepth (length (stack ps))) as [Hge|_]; [|done].
    unfold maxStackDepth in Hge. lia.
  - intros input e h ps ln col Hrun%Parse_run_reach.
    by destruct (inv_stack _ _ _ _ Hrun) as (? & _).
  - intros pre rest e h ps ln col Hrun Hlen Hguard.
    pose proof (Parse_run_reach _ _ _ _ _ _ Hrun) as HI.
    assert (Hfull : forall h1 ps1, stack ps1 = stack ps ->
              push h1 ps1 = Some (None, h1 ++ [mkNode ElementNode [] ∅ []],
                                  set_token (runes "tree too deep") ps1)).
    { intros h1 ps1 Hs. unfold push, NewNode, error. rewrite Hs, Hlen. done. }
    destruct Hguard as [[-> Hctx]|[-> Hctx]].
    + assert (Hcall : call EatAir openParenRune h ps =
                Some (None, h ++ [mkNode ElementNode [] ∅ []],
                      set_token (runes "tree too deep") ps)).
      { cbn. unfold eatAir. cbn. case_decide; [done|]. by apply Hfull. }
      eexists. exact (Parse_abort _ _ rest _ _ _ _ _ _ _ Hrun Hcall).
    + destruct (commit_is_Some h ps (inv_stack _ _ _ _ HI)) as [[h1 ps1] Hc].
      destruct (commit_wf _ _ _ _ (inv_heap _ _ _ _ HI) (inv_stack _ _ _ _ HI) Hc)
        as (_ & _ & Hs & _).
      assert (Hcall : call EatSymbol openParenRune h ps =
                Some (None, h1 ++ [mkNode ElementNode [] ∅ []],
                      set_token (runes "tree too deep") ps1)).
      { cbn. unfold eatSymbol. cbn. case_decide; [done|]. rewrite Hc. cbn.
        by apply Hfull. }
      eexists. exact (Parse_abort _ _ rest _ _ _ _ _ _ _ Hrun Hcall).
Qed.

Lemma push_depth_cap_witness :
  (exists h',
     push [] (mkParseState contextDefault [] [] false (replicate 256 0%nat)) =
       Some (None, h', mkParseState contextDefault (runes "tree too deep") [] false
                         (replicate 256 0%nat))) /\
  push [mkNode ElementNode [] ∅ []] (mkParseState contextDefault [] [] false [0%nat]) =
    Some (Some EatSymbol,
          [mkNode ElementNode [] ∅ [1%nat]; mkNode ElementNode [] ∅ []],
          mkParseState contextTag [] [] false [0%nat; 1%nat]) /\
  exists h',
    Parse (replicate 255 openParenRune ++ openParenRune :: runes "a") =
      Some (h', None, Some (RuneError openParenRune 1 256 (runes "tree too deep"))).
Proof.
  destruct push_depth_cap as (Hfail & Hok & _ & Hparse).
  split_and!.
  - apply (Hfail [] (mkParseState contextDefault [] [] false (replicate 256 0%nat))).
    cbn [stack]. rewrite length_replicate. lia.
  - apply (Hok [mkNode ElementNode [] ∅ []]
               (mkParseState contextDefault [] [] false [0%nat])
               0%nat (mkNode ElementNode [] ∅ [])); [cbn; lia|done|done].
  - destruct (Parse_run (replicate 255 openParenRune))
      as [[|e h ps ln col]|] eqn:Hrun;
      [vm_compute in Hrun; discriminate Hrun| |vm_compute in Hrun; discriminate Hrun].
    assert (e = EatSymbol /\ context ps = contextTag /\ length (stack ps) = 256%nat
            /\ ln = 1 /\ col = 255) as (-> & Hctx & Hlen & -> & ->).
    { vm_compute in Hrun. injection Hrun as <- _ <- <- <-. split_and!; reflexivity. }
    apply (Hparse _ (runes "a") _ _ _ _ _ Hrun Hlen).
    right. split; [reflexivity|]. rewrite Hctx. discriminate.
Defined.

(** C3 as stated fails: in [a :k)] the closing paren meets a stack that
    holds only the root, and the message is "unexpected close paren". *)
Lemma closing_paren_while_reading_key : ~ closing_paren_at_root_says_closing.
Proof.
  intros Hclaim.
  destruct (Hclaim (runes "a :k") []
              EatSymbol
              [mkNode ElementNode [] ∅ [1%nat]; mkNode TextNode (runes "a") ∅ []]
              (mkParseState contextAttrKey (runes "k") [] false [0%nat]) 1 4)
    as (h' & HP); [by vm_compute|reflexivity|by right|].
  vm_compute in HP. discriminate HP.
Qed.

(** C3, amended.  [pop] fails with "unexpected closing paren" when only the
    root is on the stack.  A closing paren met there ends [Parse] with a
    rune error and no tree: with that message when [pop] is reached, and
    with "unexpected close paren" when the parser is reading an attribute
    key or waits for its value, where the paren is rejected before the
    stack is looked at.  More than one frame left at the end of the input
    ends [Parse] with the stack error counting the missing parens; no
    result carries both a tree and an error; the two inputs of the tests
    are rejected. *)
Theorem unbalanced_parens_rejected :
  (forall h ps,
     (length (stack ps) <= 1)%nat ->
     pop h ps = Some (None, h, set_token (runes "unexpected closing paren") ps)) /\
  (forall pre rest e h ps ln col,
     Parse_run pre = Some (LoopEnd e h ps ln col) ->
     length (stack ps) = 1%nat ->
     e = EatAir \/ e = EatSymbol ->
     exists h' msg,
       Parse (pre ++ closeParenRune :: rest) =
         Some (h', None, Some (RuneError closeParenRune ln (col + 1) msg)) /\
       (e = EatAir /\ context ps <> contextAfterAttrKey \/
        e = EatSymbol /\ context ps <> contextAttrKey ->
        msg = runes "unexpected closing paren") /\
       (e = EatAir /\ context ps = contextAfterAttrKey \/
        e = EatSymbol /\ context ps = contextAttrKey ->
        msg = runes "unexpected close paren")) /\
  (forall input e h ps ln col,
     Parse_run input = Some (LoopEnd e h ps ln col) ->
     (1 < length (stack ps))%nat ->
     Parse input = Some (h, None, Some (StackError (length (stack ps) - 1)))) /\
  (forall input, exists h t err,
     Parse input = Some (h, t, err) /\ (err <> None -> t = None)) /\
  (exists h, Parse (runes "(a(b(c))") = Some (h, None, Some (StackError 1))) /\
  (exists h, Parse (runes "(a(b(c))))") =
     Some (h, None, Some (RuneError closeParenRune 1 10 (runes "unexpected closing paren")))).
Proof.
  split_and!.
  - intros h ps Hlen. unfold pop, error.
    destruct (Nat.ltb_spec 1 (length (stack ps))); [lia|done].
  - intros pre rest e h ps ln col Hrun Hlen He.
    pose proof (Parse_run_reach _ _ _ _ _ _ Hrun) as HI.
    assert (Hpop : forall h1 ps1, stack ps1 = stack ps ->
              pop h1 ps1 = Some (None, h1, set_token (runes "unexpected closing paren") ps1)).
    { intros h1 ps1 Hs. unfold pop, error. by rewrite Hs, Hlen. }
    destruct He as [-> | ->].
    + destruct (decide (context ps = contextAfterAttrKey)) as [Hctx|Hctx].
      * assert (Hcall : call EatAir closeParenRune h ps =
                  Some (None, h, set_token (runes "unexpected close paren") ps)).
        { cbn. unfold eatAir, error. cbn. by rewrite decide_True. }
        eexists _, _. split; [exact (Parse_abort _ _ rest _ _ _ _ _ _ _ Hrun Hcall)|].
        split; intros [[? ?]|[? ?]]; done.
      * assert (Hcall : call EatAir closeParenRune h ps =
                  Some (None, h, set_token (runes "unexpected closing paren") ps)).
        { cbn. unfold eatAir. cbn. rewrite decide_False by done. by apply Hpop. }
        eexists _, _. split; [exact (Parse_abort _ _ rest _ _ _ _ _ _ _ Hrun Hcall)|].
        split; intros [[? ?]|[? ?]]; done.
    + destruct (decide (context ps = contextAttrKey)) as [Hctx|Hctx].
      * assert (Hcall : call EatSymbol closeParenRune h ps =
                  Some (None, h, set_token (runes "unexpected close paren") ps)).
        { cbn. unfold eatSymbol, error. cbn. by rewrite decide_True. }
        eexists _, _. split; [exact (Parse_abort _ _ rest _ _ _ _ _ _ _ Hrun Hcall)|].
        split; intros [[? ?]|[? ?]]; done.
      * destruct (commit_is_Some h ps (inv_stack _ _ _ _ HI)) as [[h1 ps1] Hc].
        destruct (commit_wf _ _ _ _ (inv_heap _ _ _ _ HI) (inv_stack _ _ _ _ HI) Hc)
          as (_ & _ & Hs & _).
        assert (Hcall : call EatSymbol closeParenRune h ps =
                  Some (None, h1, set_token (runes "unexpected closing paren") ps1)).
        { cbn. unfold eatSymbol. cbn. rewrite decide_False by done. rewrite Hc. cbn.
          by apply Hpop. }
        eexists _, _. split; [exact (Parse_abort _ _ rest _ _ _ _ _ _ _ Hrun Hcall)|].
        split; intros [[? ?]|[? ?]]; done.
  - intros input e h ps ln col Hrun Hlen. unfold Parse.
    case_decide as Hnil; [subst; vm_compute in Hrun; injection Hrun as _ _ <- _ _; cbn in Hlen; lia|].
    rewrite Hrun. cbn [mbind option_bind].
    destruct (Nat.ltb_spec 1 (length (stack ps))); [done|lia].
  - intros input. destruct (Parse input) as [[[h t] err]|] eqn:HP.
    + exists h, t, err. split; [done|].
      apply Parse_Some_inv in HP
        as [(_ & _ & ? & _)|(_ & [(e & _ & ? & _)|(e & ps & ln & col & _ & _ & [(_ & ? & _)|(_ & _ & ->)])])];
        done.
    + exfalso. revert HP. unfold Parse. case_decide; [done|].
      destruct (Parse_run_Inv input) as (out & -> & HI). cbn [mbind option_bind].
      destruct out as [|e h ps ln col]; [done|].
      destruct (inv_stack _ _ _ _ HI) as (_ & _ & ->). by destruct (_ <? _)%nat.
  - eexists. vm_compute. reflexivity.
  - eexists. vm_compute. reflexivity.
Qed.

Lemma unbalanced_parens_rejected_witness :
  pop [] (mkParseState contextDefault [] [] false [0%nat]) =
    Some (None, [], mkParseState contextDefault (runes "unexpected closing paren")
                      [] false [0%nat]) /\
  (exists h' msg,
     Parse (runes "(a)" ++ closeParenRune :: runes "b") =
       Some (h', None, Some (RuneError closeParenRune 1 (3 + 1) msg)) /\
     msg = runes "unexpected closing paren") /\
  (exists h' msg,
     Parse (runes "a :k" ++ closeParenRune :: runes "b") =
       Some (h', None, Some (RuneError closeParenRune 1 (4 + 1) msg)) /\
     msg = runes "unexpected close paren") /\
  (exists h, Parse (runes "(a (b") = Some (h, None, Some (StackError 2))).
Proof.
  destruct unbalanced_parens_rejected as (Hpop & Hextra & Hmissing & _).
  split_and!.
  - apply (Hpop [] (mkParseState contextDefault [] [] false [0%nat])). cbn. lia.
  - destruct (Parse_run (runes "(a)")) as [[|e h ps ln col]|] eqn:Hrun;
      [vm_compute in Hrun; discriminate Hrun| |vm_compute in Hrun; discriminate Hrun].
    assert (e = EatAir /\ context ps = contextDefault /\ length (stack ps) = 1%nat
            /\ ln = 1 /\ col = 3) as (-> & Hctx & Hlen & -> & ->).
    { vm_compute in Hrun. injection Hrun as <- _ <- <- <-. split_and!; reflexivity. }
    destruct (Hextra _ (runes "b") _ _ _ _ _ Hrun Hlen (or_introl eq_refl))
      as (h' & msg & HP & Hmsg & _).
    exists h', msg. split; [exact HP|]. apply Hmsg. left. split; [reflexivity|].
    rewrite Hctx. discriminate.
  - destruct (Parse_run (runes "a :k")) as [[|e h ps ln col]|] eqn:Hrun;
      [vm_compute in Hrun; discriminate Hrun| |vm_compute in Hrun; discriminate Hrun].
    assert (e = EatSymbol /\ context ps = contextAttrKey /\ length (stack ps) = 1%nat
            /\ ln = 1 /\ col = 4) as (-> & Hctx & Hlen & -> & ->).
    { vm_compute in Hrun. injection Hrun as <- _ <- <- <-. split_and!; reflexivity. }
    destruct (Hextra _ (runes "b") _ _ _ _ _ Hrun Hlen (or_intror eq_refl))
      as (h' & msg & HP & _ & Hmsg).
    exists h', msg. split; [exact HP|]. apply Hmsg. right. by split.
  - destruct (Parse_run (runes "(a (b")) as [[|e h ps ln col]|] eqn:Hrun;
      [vm_compute in Hrun; discriminate Hrun| |vm_compute in Hrun; discriminate Hrun].
    assert (length (stack ps) = 3%nat) as Hlen.
    { vm_compute in Hrun. injection Hrun as _ _ <- _ _. reflexivity. }
    exists h. rewrite (Hmissing _ _ _ _ _ _ Hrun) by lia. by rewrite Hlen.
Defined.

(** C8 as stated fails: an unterminated literal at top level is accepted. *)
Lemma unterminated_string_accepted : ~ unterminated_string_is_error.
Proof.
  intros Hclaim.
  destruct (Hclaim (quoteRune :: runes "abc") [mkNode ElementNode [] ∅ []]
              (mkParseState contextContent (runes "abc") [] false [0%nat]) 1 4)
    as (h' & err & HP); [by vm_compute|].
  vm_compute in HP. discriminate HP.
Qed.

(** C8, amended.  When the input ends inside a quoted literal, [Parse]
    returns the stack error if an element is still open, and otherwise the
    root with no error. *)
Theorem unterminated_string_at_end (input : gostring) h ps ln col :
  Parse_run input = Some (LoopEnd EatString h ps ln col) ->
  Parse input =
    if (1 <? length (stack ps))%nat
    then Some (h, None, Some (StackError (length (stack ps) - 1)))
    else Some (h, Some 0%nat, None).
Proof.
  intros Hrun. pose proof (Parse_run_reach _ _ _ _ _ _ Hrun) as HI.
  unfold Parse. case_decide as Hnil; [subst; by vm_compute in Hrun|].
  rewrite Hrun. cbn [mbind option_bind].
  destruct (inv_stack _ _ _ _ HI) as (_ & _ & ->). done.
Qed.

Lemma unterminated_string_at_end_witness :
  (exists h, Parse (runes "(a " ++ quoteRune :: runes "abc") =
               Some (h, None, Some (StackError 1))) /\
  (exists h, Parse (quoteRune :: runes "abc") = Some (h, Some 0%nat, None)).
Proof.
  split.
  - destruct (Parse_run (runes "(a " ++ quoteRune :: runes "abc"))
      as [[|e h ps ln col]|] eqn:Hrun;
      [vm_compute in Hrun; discriminate Hrun| |vm_compute in Hrun; discriminate Hrun].
    assert (e = EatString /\ length (stack ps) = 2%nat) as (-> & Hlen).
    { vm_compute in Hrun. injection Hrun as <- _ <- _ _. split; reflexivity. }
    exists h. rewrite (unterminated_string_at_end _ _ _ _ _ Hrun). by rewrite Hlen.
  - destruct (Parse_run (quoteRune :: runes "abc"))
      as [[|e h ps ln col]|] eqn:Hrun;
      [vm_compute in Hrun; discriminate Hrun| |vm_compute in Hrun; discriminate Hrun].
    assert (e = EatString /\ length (stack ps) = 1%nat) as (-> & Hlen).
    { vm_compute in Hrun. injection Hrun as <- _ <- _ _. split; reflexivity. }
    exists h. rewrite (unterminated_string_at_end _ _ _ _ _ Hrun). by rewrite Hlen.
Defined.

Lemma set_token_same ps : set_token (token ps) ps = ps.
Proof. by destruct ps. Qed.

Lemma symbol_rune_not_newline r : is_symbol_rune r = true -> (r =? newLineRune) = false.
Proof.
  intros (_ & _ & _ & _ & Hsp)%is_symbol_rune_inv.
  destruct (Z.eqb_spec r newLineRune) as [->|]; [by vm_compute in Hsp|done].
Qed.

(** [eatSymbol] absorbs a run of symbol runes. *)
Lemma Parse_loop_symbol cs : forall h ps ln col,
  Forall (fun r => is_symbol_rune r = true) cs ->
  Parse_loop cs EatSymbol h ps ln col =
    Some (LoopEnd EatSymbol h (set_token (token ps ++ cs) ps) ln
                  (col + Z.of_nat (length cs))).
Proof.
  induction cs as [|r cs IH]; intros h ps ln col Hcs; cbn [Parse_loop].
  - rewrite app_nil_r, set_token_same. cbn. by rewrite Z.add_0_r.
  - apply Forall_cons in Hcs as [Hr Hcs]. cbn [call].
    rewrite (eatSymbol_default r h ps Hr). cbn [mbind option_bind].
    rewrite (symbol_rune_not_newline r Hr), (IH _ _ _ _ Hcs).
    cbn [token set_token length]. rewrite <- app_assoc.
    replace (col + 1 + Z.of_nat (length cs)) with (col + Z.of_nat (S (length cs))) by lia.
    reflexivity.
Qed.

Lemma space_not_special sp :
  unicode_IsSpace sp = true ->
  sp <> openParenRune /\ sp <> closeParenRune /\ sp <> quoteRune /\ sp <> escapingRune.
Proof. intros Hsp. split_and!; intros ->; by vm_compute in Hsp. Qed.

(** C10 as stated fails: [hello] parses to a root without children. *)
Lemma single_token_is_dropped : ~ single_token_becomes_text_child.
Proof.
  intros Hclaim.
  destruct (Hclaim 104 (runes "ello")) as (h & root & child & HP & Hroot & _);
    [done|done|done|by repeat constructor|].
  vm_compute in HP. injection HP as <- <-. by vm_compute in Hroot.
Qed.

(** C10, amended.  For an input that is one bare token, [Parse] returns the
    root with no child and it renders as the empty string: the token is
    committed only by a delimiter.  Followed by a space rune, the token
    becomes the single text child of the root and renders as itself
    ([&nbsp;] for the token [_]). *)
Theorem single_bare_token (c : rune) (cs : gostring) :
  is_symbol_rune c = true -> c <> commentStartRune -> c <> keywordStartRune ->
  Forall (fun r => is_symbol_rune r = true) cs ->
  Parse (c :: cs) = Some ([mkNode ElementNode [] ∅ []], Some 0%nat, None) /\
  Parse_String (c :: cs) = Some [] /\
  forall sp, unicode_IsSpace sp = true ->
    Parse (c :: cs ++ [sp]) =
      Some ([mkNode ElementNode [] ∅ [1%nat]; mkNode TextNode (c :: cs) ∅ []],
            Some 0%nat, None) /\
    Parse_String (c :: cs ++ [sp]) =
      Some (if decide (c :: cs = runes "_") then runes "&nbsp;" else c :: cs).
Proof.
  intros Hc Hsemi Hcolon Hcs.
  assert (Hrun : forall rest, Parse_run (c :: cs ++ rest) =
            Parse_loop rest EatSymbol [mkNode ElementNode [] ∅ []]
              (mkParseState contextContent (c :: cs) [] false [0%nat])
              1 (0 + 1 + Z.of_nat (length cs))).
  { intros rest. unfold Parse_run. cbn [Parse_loop call].
    rewrite (eatAir_default c _ _ Hc Hsemi Hcolon). cbn [mbind option_bind].
    rewrite (symbol_rune_not_newline c Hc).
    rewrite Parse_loop_app, (Parse_loop_symbol cs _ _ _ _ Hcs). reflexivity. }
  assert (HP : Parse (c :: cs) = Some ([mkNode ElementNode [] ∅ []], Some 0%nat, None)).
  { unfold Parse. rewrite decide_False by done.
    rewrite <- (app_nil_r cs), Hrun. done. }
  split_and!.
  - exact HP.
  - unfold Parse_String. rewrite HP. done.
  - intros sp Hsp.
    destruct (space_not_special sp Hsp)
      as (H1%Z.eqb_neq & H2%Z.eqb_neq & H3%Z.eqb_neq & H4%Z.eqb_neq).
    assert (HP' : Parse (c :: cs ++ [sp]) =
      Some ([mkNode ElementNode [] ∅ [1%nat]; mkNode TextNode (c :: cs) ∅ []],
            Some 0%nat, None)).
    { unfold Parse. rewrite decide_False by done. rewrite Hrun.
      cbn [Parse_loop call]. unfold eatSymbol.
      rewrite H1, H2, H3, H4, Hsp.
      destruct (sp =? newLineRune); reflexivity. }
    split; [exact HP'|].
    unfold Parse_String. rewrite HP'. cbn. rewrite decide_True by done.
    by case_decide.
Qed.

Lemma single_bare_token_witness :
  Parse (runes "hello") = Some ([mkNode ElementNode [] ∅ []], Some 0%nat, None) /\
  Parse_String (runes "hello") = Some [] /\
  Parse_String (runes "hello ") = Some (runes "hello").
Proof.
  destruct (single_bare_token 104 (runes "ello")) as (HP & HS & Hsp);
    [done|done|done|by repeat constructor|].
  split_and!; [exact HP|exact HS|]. exact (proj2 (Hsp 32 eq_refl)).
Defined.

(** * The serializer *)

(** ** The order of Go strings *)

Lemma string_lt_irrefl a : string_lt a a = false.
Proof. induction a as [|x a IH]; cbn; [done|]. by rewrite Z.ltb_irrefl. Qed.

Lemma string_lt_asym a : forall b, string_lt a b = true -> string_lt b a = false.
Proof.
  induction a as [|x a IH]; intros [|y b]; cbn; try done.
  destruct (Z.ltb_spec x y), (Z.ltb_spec y x); try done; try lia. apply IH.
Qed.

Lemma string_lt_total a : forall b,
  string_lt a b = false -> string_lt b a = false -> a = b.
Proof.
  induction a as [|x a IH]; intros [|y b]; cbn; try done.
  destruct (Z.ltb_spec x y), (Z.ltb_spec y x); try done.
  intros. assert (x = y) as -> by lia. f_equal. by apply IH.
Qed.

Lemma string_lt_trans a : forall b c,
  string_lt a b = true -> string_lt b c = true -> string_lt a c = true.
Proof.
  induction a as [|x a IH]; intros [|y b] [|z c]; cbn; try done.
  destruct (Z.ltb_spec x y), (Z.ltb_spec y x), (Z.ltb_spec y z),
    (Z.ltb_spec z y), (Z.ltb_spec x z), (Z.ltb_spec z x); try done; try lia.
  apply IH.
Qed.

Global Instance string_le_total : Total string_le.
Proof.
  intros a b. unfold string_le.
  destruct (string_lt b a) eqn:E; [right; by apply string_lt_asym|by left].
Qed.

Global Instance string_le_trans : Transitive string_le.
Proof.
  unfold string_le. intros a b c Hab Hbc.
  destruct (string_lt c a) eqn:Hca; [|done].
  destruct (string_lt a b) eqn:E1.
  - by rewrite (string_lt_trans c a b Hca E1) in Hbc.
  - rewrite (string_lt_total a b E1 Hab) in Hca. by rewrite Hca in Hbc.
Qed.

(** ** [sort.Sort] on the keys of a map *)

Lemma sort_Sort_perm l : sort_Sort l ≡ₚ l.
Proof. apply merge_sort_Permutation. Qed.

Lemma sort_Sort_strict l :
  NoDup l -> StronglySorted (fun a b => string_lt a b = true) (sort_Sort l).
Proof.
  intros Hnd. rewrite <- (sort_Sort_perm l) in Hnd.
  pose proof (StronglySorted_merge_sort string_le l) as Hs.
  fold (sort_Sort l) in Hs. induction Hs as [|x l' Hs IH Hall]; constructor.
  - apply IH. by apply NoDup_cons in Hnd as [_ ?].
  - apply NoDup_cons in Hnd as [Hx _]. rewrite Forall_forall in Hall |- *.
    intros y Hy. specialize (Hall y Hy). unfold string_le in Hall.
    destruct (string_lt x y) eqn:E; [done|].
    rewrite (string_lt_total x y E Hall) in Hx. done.
Qed.

Lemma attrKeys_of_elem (m : gmap (list Z) (list Z)) k :
  k ∈ attrKeys_of m <-> is_Some (m !! k).
Proof.
  unfold attrKeys_of. rewrite list_elem_of_fmap. split.
  - intros ([k' v] & -> & Hkv%elem_of_map_to_list). eauto.
  - intros [v Hv]. exists (k, v). split; [done|]. by apply elem_of_map_to_list.
Qed.

Lemma sorted_keys_elem (m : gmap (list Z) (list Z)) k :
  k ∈ sort_Sort (attrKeys_of m) <-> is_Some (m !! k).
Proof. by rewrite sort_Sort_perm, attrKeys_of_elem. Qed.

Lemma sorted_keys_unique (m : gmap (list Z) (list Z)) ks :
  StronglySorted (fun a b => string_lt a b = true) ks ->
  (forall k, k ∈ ks <-> is_Some (m !! k)) ->
  ks = sort_Sort (attrKeys_of m).
Proof.
  intros Hs Hks.
  pose proof (sort_Sort_strict _ (NoDup_fst_map_to_list m)) as Hs'.
  fold (attrKeys_of m) in Hs'.
  assert (Hirr : forall l, StronglySorted (fun a b => string_lt a b = true) l -> NoDup l).
  { induction 1 as [|x l Hl IH Hall]; constructor; [|done].
    intros Hx. rewrite Forall_forall in Hall. specialize (Hall x Hx).
    by rewrite string_lt_irrefl in Hall. }
  apply (StronglySorted_unique_strong (fun a b => string_lt a b = true)); [|done|done|].
  - intros x y _ _ Hxy Hyx. by rewrite (string_lt_asym x y Hxy) in Hyx.
  - apply NoDup_Permutation; auto.
    intros k. by rewrite Hks, sorted_keys_elem.
Qed.

(** ** The loops of [Node.String] *)

Lemma appendAttrs_concat m ks : forall s,
  appendAttrs m ks s =
    s ++ concat ((fun k => runes " " ++ k ++ runes "=" ++ [quoteRune] ++
                           default [] (m !! k) ++ [quoteRune]) <$> ks).
Proof.
  unfold appendAttrs.
  induction ks as [|k ks IH]; intros s; cbn [foldl fmap list_fmap concat].
  - by rewrite app_nil_r.
  - rewrite IH. change (runes " ") with [32]. change (runes "=") with [61].
    repeat (rewrite <- ?app_assoc; cbn [app]). reflexivity.
Qed.

Lemma appendAll_prefix f cs : forall s,
  appendAll f cs s = (fun x => s ++ x) <$> appendAll f cs [].
Proof.
  induction cs as [|c cs IH]; intros s; cbn.
  - by rewrite app_nil_r.
  - destruct (f c) as [x|]; cbn; [|done].
    rewrite (IH (s ++ x)), (IH x). destruct (appendAll f cs []); cbn; [|done].
    by rewrite app_assoc.
Qed.

Lemma appendAll_is_Some f cs s :
  Forall (fun c => is_Some (f c)) cs -> is_Some (appendAll f cs s).
Proof.
  revert s. induction cs as [|c cs IH]; intros s Hcs; cbn; [eauto|].
  apply Forall_cons in Hcs as [[x ->] Hcs]. cbn. by apply IH.
Qed.

(** Rendering a well-formed heap needs no more fuel than the heap has
    nodes after the pointer. *)
Lemma Node_String_total (h : Heap) : heap_wf h -> forall fuel p,
  (p < length h)%nat -> (length h <= p + fuel)%nat ->
  is_Some (Node_String fuel h (Some p)).
Proof.
  intros Hwf. induction fuel as [|fuel IH]; intros p Hp Hfuel; [lia|].
  cbn [Node_String]. destruct (lookup_lt_is_Some_2 h p Hp) as [n Hn].
  rewrite Hn. cbn [mbind option_bind].
  assert (Hkids : forall s, is_Some
            (appendAll (fun c => Node_String fuel h (Some c)) (content n) s)).
  { intros s. apply appendAll_is_Some.
    eapply Forall_impl; [exact (Hwf _ _ Hn)|]. cbn. intros c [? ?].
    apply IH; lia. }
  destruct (kind n); [|case_decide; eauto].
  case_decide; [done|]. case_decide.
  - destruct (degenerateTags !! tag n); eauto.
  - destruct (Hkids
      (appendAttrs (attr n) (sort_Sort (attrKeys_of (attr n))) (runes "<" ++ tag n)
         ++ runes ">")) as [s ->]. cbn. eauto.
Qed.

Lemma degenerateTags_lookup t :
  is_Some (degenerateTags !! t) <->
  t ∈ [runes "br"; runes "hr"; runes "link"; runes "img"; runes "meta"].
Proof.
  unfold degenerateTags. cbn [list_to_map foldr fst snd curry].
  rewrite !lookup_insert, lookup_empty. split.
  - repeat case_decide; subst; intros Hs; try set_solver.
  - intros Hin. repeat (apply elem_of_cons in Hin as [->|Hin]); try (by eauto).
    set_solver.
Qed.

(** C4.  An element with a non-empty tag renders as ["<" tag], then its
    attributes in strictly ascending order of their keys, then the rest.
    The key list is the only ascending list with the keys of the map, so it
    does not depend on the order the attributes were inserted in; the rest
    is there whenever the heap is well formed and the fuel suffices. *)
Theorem attributes_in_key_order (fuel : nat) (h : Heap) (p : ptr) (n : Node) :
  h !! p = Some n -> kind n = ElementNode -> tag n <> [] ->
  exists (ks : list gostring) (rest : option gostring),
    Node_String (S fuel) h (Some p) =
      (fun tail =>
         runes "<" ++ tag n ++
         concat ((fun k => runes " " ++ k ++ runes "=" ++ [quoteRune] ++
                           default [] (attr n !! k) ++ [quoteRune]) <$> ks) ++
         tail) <$> rest /\
    StronglySorted (fun a b => string_lt a b = true) ks /\
    (forall k, k ∈ ks <-> is_Some (attr n !! k)) /\
    (forall ks', StronglySorted (fun a b => string_lt a b = true) ks' ->
                 (forall k, k ∈ ks' <-> is_Some (attr n !! k)) -> ks' = ks) /\
    (heap_wf h -> (length h <= p + S fuel)%nat -> is_Some rest).
Proof.
  intros Hn Hkind Htag.
  exists (sort_Sort (attrKeys_of (attr n))).
  exists (if decide (length (content n) = 0%nat) then
            match degenerateTags !! tag n with
            | Some _ => Some (runes "/>")
            | None => Some (runes "></" ++ tag n ++ runes ">")
            end
          else
            (fun body => runes ">" ++ body ++ runes "</" ++ tag n ++ runes ">") <$>
              appendAll (fun c => Node_String fuel h (Some c)) (content n) []).
  split_and!.
  - cbn [Node_String]. rewrite Hn. cbn [mbind option_bind]. rewrite Hkind.
    rewrite decide_False by done. rewrite appendAttrs_concat.
    case_decide.
    + destruct (degenerateTags !! tag n); cbn;
        repeat (rewrite <- ?app_assoc; cbn [app]); reflexivity.
    + rewrite appendAll_prefix.
      destruct (appendAll _ (content n) []) as [body|]; cbn; [|done].
      repeat (rewrite <- ?app_assoc; cbn [app]). reflexivity.
  - apply sort_Sort_strict, NoDup_fst_map_to_list.
  - apply sorted_keys_elem.
  - apply sorted_keys_unique.
  - intros Hwf Hfuel. case_decide.
    + destruct (degenerateTags !! tag n); eauto.
    + apply fmap_is_Some, appendAll_is_Some.
      eapply Forall_impl; [exact (Hwf _ _ Hn)|]. cbn. intros c [? ?].
      apply Node_String_total; [done|lia|lia].
Qed.

Lemma attributes_in_key_order_witness :
  Parse_String (runes "(a :x 1 (b :z 2 :y 3 (c)))") =
    Some (runes "<a x=" ++ [quoteRune] ++ runes "1" ++ [quoteRune] ++
          runes "><b y=" ++ [quoteRune] ++ runes "3" ++ [quoteRune] ++
          runes " z=" ++ [quoteRune] ++ runes "2" ++ [quoteRune] ++
          runes "><c></c></b></a>") /\
  exists (ks : list gostring) (rest : option gostring),
    ks = [runes "y"; runes "z"] /\ is_Some rest /\
    Node_String 2 [mkNode ElementNode [] ∅ [1%nat];
                   mkNode ElementNode (runes "b")
                     (<[runes "y" := runes "3"]> (<[runes "z" := runes "2"]> ∅)) []]
                (Some 1%nat) =
      (fun tail =>
         runes "<" ++ runes "b" ++
         concat ((fun k => runes " " ++ k ++ runes "=" ++ [quoteRune] ++
                           default [] ((<[runes "y" := runes "3"]>
                                          (<[runes "z" := runes "2"]> ∅) : gmap _ _) !! k)
                           ++ [quoteRune]) <$> ks) ++
         tail) <$> rest.
Proof.
  split; [vm_compute; reflexivity|].
  destruct (attributes_in_key_order 1
              [mkNode ElementNode [] ∅ [1%nat];
               mkNode ElementNode (runes "b")
                 (<[runes "y" := runes "3"]> (<[runes "z" := runes "2"]> ∅)) []]
              1%nat
              (mkNode ElementNode (runes "b")
                 (<[runes "y" := runes "3"]> (<[runes "z" := runes "2"]> ∅)) []))
    as (ks & rest & Heq & Hsorted & Hmem & Huniq & Htotal);
    [reflexivity|reflexivity|discriminate|].
  exists ks, rest. split_and!.
  - symmetry. apply Huniq.
    + repeat constructor.
    + intros k. cbn [attr]. rewrite lookup_insert. case_decide as Hy.
      { subst. split; [eauto|]. set_solver. }
      rewrite lookup_insert. case_decide as Hz.
      { subst. split; [eauto|]. set_solver. }
      rewrite lookup_empty. split; [set_solver|]. by intros [? ?].
  - apply Htotal; [|cbn; lia].
    intros [|[|i]] n; cbn; intros [= <-]; repeat constructor; cbn; lia.
  - exact Heq.
Defined.

Lemma last_two_inj (l l' : list Z) a b c d :
  l ++ [a; b] = l' ++ [c; d] -> a = c /\ b = d.
Proof.
  change (l ++ [a; b]) with (l ++ [a] ++ [b]).
  change (l' ++ [c; d]) with (l' ++ [c] ++ [d]).
  rewrite !app_assoc. intros [[_ ?]%app_inj_tail ?]%app_inj_tail. done.
Qed.

(** C5.  A childless element with a non-empty tag renders as its opening
    followed by ["/>"] when the tag is one of br, hr, link, img, meta, with
    no closing tag after it, and as its opening followed by ["></" tag ">"]
    otherwise, which is not the self-closed form; [(br)] and
    [(a :href foo)] render as in the tests. *)
Theorem childless_element_closing (fuel : nat) (h : Heap) (p : ptr) (n : Node) :
  h !! p = Some n -> kind n = ElementNode -> tag n <> [] -> content n = [] ->
  let opening :=
    appendAttrs (attr n) (sort_Sort (attrKeys_of (attr n))) (runes "<" ++ tag n) in
  let void := [runes "br"; runes "hr"; runes "link"; runes "img"; runes "meta"] in
  (tag n ∈ void ->
   Node_String (S fuel) h (Some p) = Some (opening ++ runes "/>") /\
   ~ (runes "</" ++ tag n ++ runes ">") `suffix_of` (opening ++ runes "/>")) /\
  (tag n ∉ void ->
   Node_String (S fuel) h (Some p) =
     Some (opening ++ runes "></" ++ tag n ++ runes ">") /\
   opening ++ runes "></" ++ tag n ++ runes ">" <> opening ++ runes "/>") /\
  Parse_String (runes "(br)") = Some (runes "<br/>") /\
  Parse_String (runes "(a :href foo)") =
    Some (runes "<a href=" ++ [quoteRune] ++ runes "foo" ++ [quoteRune] ++ runes "></a>").
Proof.
  intros Hn Hkind Htag Hcontent opening void.
  assert (Hstr : Node_String (S fuel) h (Some p) =
            match degenerateTags !! tag n with
            | Some _ => Some (opening ++ runes "/>")
            | None => Some (opening ++ runes "></" ++ tag n ++ runes ">")
            end).
  { cbn [Node_String]. rewrite Hn. cbn [mbind option_bind]. rewrite Hkind.
    rewrite decide_False by done. rewrite Hcontent. cbn [length].
    rewrite decide_True by done.
    destruct (degenerateTags !! tag n); [done|]. by rewrite <- app_assoc. }
  split_and!; [| |vm_compute; reflexivity..].
  - intros Hvoid. pose proof (proj2 (degenerateTags_lookup (tag n)) Hvoid) as [v Hv].
    rewrite Hstr, Hv. split; [done|].
    intros [x Hx]. subst void. change (runes "/>") with [47; 62] in Hx.
    repeat (apply elem_of_cons in Hvoid as [Ht|Hvoid]);
      [..|by apply elem_of_nil in Hvoid]; rewrite Ht in Hx.
    + change (runes "</" ++ runes "br" ++ runes ">")
        with ([60; 47; 98] ++ [114; 62]) in Hx.
      rewrite app_assoc in Hx. by apply last_two_inj in Hx as [? _].
    + change (runes "</" ++ runes "hr" ++ runes ">")
        with ([60; 47; 104] ++ [114; 62]) in Hx.
      rewrite app_assoc in Hx. by apply last_two_inj in Hx as [? _].
    + change (runes "</" ++ runes "link" ++ runes ">")
        with ([60; 47; 108; 105; 110] ++ [107; 62]) in Hx.
      rewrite app_assoc in Hx. by apply last_two_inj in Hx as [? _].
    + change (runes "</" ++ runes "img" ++ runes ">")
        with ([60; 47; 105; 109] ++ [103; 62]) in Hx.
      rewrite app_assoc in Hx. by apply last_two_inj in Hx as [? _].
    + change (runes "</" ++ runes "meta" ++ runes ">")
        with ([60; 47; 109; 101; 116] ++ [97; 62]) in Hx.
      rewrite app_assoc in Hx. by apply last_two_inj in Hx as [? _].
  - intros Hvoid. rewrite Hstr.
    destruct (degenerateTags !! tag n) as [v|] eqn:Hv.
    { exfalso. apply Hvoid, degenerateTags_lookup. eauto. }
    split; [done|]. by intros [=]%app_inv_head.
Qed.

Lemma childless_element_closing_witness :
  Node_String 1 [mkNode ElementNode (runes "br") ∅ []] (Some 0%nat) =
    Some (runes "<br/>") /\
  Node_String 1 [mkNode ElementNode (runes "p") ∅ []] (Some 0%nat) =
    Some (runes "<p></p>").
Proof.
  split.
  - destruct (childless_element_closing 0 [mkNode ElementNode (runes "br") ∅ []]
                0%nat (mkNode ElementNode (runes "br") ∅ []))
      as ((-> & _) & _); [reflexivity|reflexivity|discriminate|reflexivity| |reflexivity].
    cbn [tag]. set_solver.
  - destruct (childless_element_closing 0 [mkNode ElementNode (runes "p") ∅ []]
                0%nat (mkNode ElementNode (runes "p") ∅ []))
      as (_ & (-> & _) & _); [reflexivity|reflexivity|discriminate|reflexivity| |reflexivity].
    cbn [tag]. intros Hin.
    repeat (apply elem_of_cons in Hin as [Hin|Hin]; [discriminate Hin|]).
    by apply elem_of_nil in Hin.
Defined.

(** * Further properties *)

(** ** [Parse] never panics *)

Lemma Parse_is_Some (input : gostring) : is_Some (Parse input).
Proof.
  unfold Parse. case_decide; [eauto|].
  destruct (Parse_run_Inv input) as (out & -> & HI). cbn [mbind option_bind].
  destruct out as [|e h ps ln col]; [eauto|].
  destruct (inv_stack _ _ _ _ HI) as (_ & _ & ->). destruct (_ <? _)%nat; cbn; eauto.
Qed.

(** X1.  [Parse] never panics: it returns for every input, with neither
    tree nor error for the empty input, and otherwise with either the root
    (address 0) and no error, or an error and no tree. *)
Theorem Parse_never_panics (input : gostring) :
  exists h t err,
    Parse input = Some (h, t, err) /\
    (input = [] -> t = None /\ err = None) /\
    (input <> [] -> (t = Some 0%nat /\ err = None) \/ (t = None /\ err <> None)).
Proof.
  destruct (Parse_is_Some input) as [[[h t] err] HP].
  exists h, t, err. split; [done|].
  apply Parse_Some_inv in HP
    as [(-> & _ & -> & ->)|(Hne & [(e & _ & -> & ->)|(e & ps & ln & col & _ & _ &
          [(_ & -> & ->)|(_ & -> & ->)])])]; split; try done; intros _; auto.
Qed.

Lemma Parse_never_panics_witness :
  exists h, Parse (runes "(a)") = Some (h, Some 0%nat, None).
Proof.
  destruct (Parse_never_panics (runes "(a)")) as (h & t & err & HP & _ & Hne).
  destruct (Hne ltac:(discriminate)) as [[Ht Herr]|[Ht Herr]]; subst t.
  - subst err. eauto.
  - exfalso. vm_compute in HP. discriminate HP.
Defined.

(** X2.  [Parse(x).String()] terminates for every input: the fuel of the
    heap's size is enough to render whatever [Parse] returns. *)
Theorem Parse_String_total (input : gostring) :
  is_Some (Parse_String input).
Proof.
  unfold Parse_String.
  destruct (Parse_is_Some input) as [[[h t] err] HP].
  rewrite HP. cbn [mbind option_bind].
  apply Parse_Some_inv in HP
    as [(-> & _ & -> & ->)|(Hne & [(e & _ & -> & ->)|(e & ps & ln & col & _ & HI &
          [(_ & -> & ->)|(_ & -> & ->)])])]; try (cbn; eauto; fail).
  destruct (inv_stack _ _ _ _ HI) as (_ & Hall & Hroot).
  apply Node_String_total; [exact (inv_heap _ _ _ _ HI)| |lia].
  rewrite Forall_forall in Hall. apply Hall. by eapply list_elem_of_lookup_2.
Qed.

(** ** Positions *)

Lemma advance_fst pos s :
  (foldl advance pos s).1 =
    pos.1 + Z.of_nat (length (filter (fun r => r = newLineRune) s)).
Proof.
  revert pos. induction s as [|r s IH]; intros pos; cbn [foldl].
  - cbn. lia.
  - rewrite IH. unfold advance. rewrite filter_cons.
    destruct (Z.eqb_spec r newLineRune); case_decide; try done; cbn; lia.
Qed.

Lemma advance_snd_no_newline pos s :
  newLineRune ∉ s -> (foldl advance pos s).2 = pos.2 + Z.of_nat (length s).
Proof.
  revert pos. induction s as [|r s IH]; intros pos Hs; cbn [foldl].
  - cbn. lia.
  - apply not_elem_of_cons in Hs as [Hr Hs]. rewrite (IH _ Hs). unfold advance.
    destruct (Z.eqb_spec r newLineRune); [done|]. cbn. lia.
Qed.

Lemma advance_snd_newline pos pre post :
  newLineRune ∉ post ->
  (foldl advance pos (pre ++ newLineRune :: post)).2 = Z.of_nat (length post).
Proof.
  intros Hpost. rewrite foldl_app. cbn [foldl].
  rewrite (advance_snd_no_newline _ _ Hpost). unfold advance at 1.
  by rewrite Z.eqb_refl.
Qed.

Lemma Parse_loop_position input : forall e h ps ln col out,
  Parse_loop input e h ps ln col = Some out ->
  match out with
  | LoopEnd _ _ _ ln' col' => (ln', col') = foldl advance (ln, col) input
  | LoopReturn _ (RuneError r ln' col' _) =>
      exists pre rest e1 h1 ps1 ln1 col1,
        input = pre ++ r :: rest /\
        Parse_loop pre e h ps ln col = Some (LoopEnd e1 h1 ps1 ln1 col1) /\
        (ln', col') = foldl advance (ln, col) (pre ++ [r])
  | LoopReturn _ (StackError _) => False
  end.
Proof.
  induction input as [|r rest IH]; intros e h ps ln col out; cbn [Parse_loop].
  - by intros [= <-].
  - assert (Hadv : advance (ln, col) r =
              (if r =? newLineRune then (ln + 1, 0) else (ln, col + 1)))
      by (unfold advance; cbn; by destruct (r =? newLineRune)).
    cbn [foldl]. rewrite Hadv.
    destruct (call e r h ps) as [[[[e1|] h1] ps1]|] eqn:Hcall;
      cbn [mbind option_bind]; [| |done].
    + assert (Hstep : forall pre,
                Parse_loop (r :: pre) e h ps ln col =
                Parse_loop pre e1 h1 ps1
                  (if r =? newLineRune then (ln + 1, 0) else (ln, col + 1)).1
                  (if r =? newLineRune then (ln + 1, 0) else (ln, col + 1)).2).
      { intros pre. cbn [Parse_loop]. rewrite Hcall. cbn [mbind option_bind].
        by destruct (r =? newLineRune). }
      destruct (r =? newLineRune); cbn [fst snd] in Hstep; intros Hout;
        apply IH in Hout; (destruct out as [h' [r' ln' col' m|]|]; [|done|exact Hout]);
        destruct Hout as (pre & rest' & e2 & h2 & ps2 & ln2 & col2 & Hrest & Hpre & Hpos);
        exists (r :: pre), rest', e2, h2, ps2, ln2, col2;
        rewrite Hrest, Hstep; cbn [app foldl]; rewrite Hadv; done.
    + destruct (r =? newLineRune); intros [= <-];
        exists [], rest, e, h, ps, ln, col; split_and!; try done.
Qed.

(** X3.  The rune a rune error reports is the first rune an [eatFn]
    rejects: the input before it is read to the end; the line is one plus
    the number of newlines up to and including that rune, the column is the
    number of runes read since the last newline (the rune included). *)
Theorem error_position (input : gostring) h r ln col msg :
  Parse input = Some (h, None, Some (RuneError r ln col msg)) ->
  exists pre rest e1 h1 ps1 ln1 col1,
    input = pre ++ r :: rest /\
    Parse_run pre = Some (LoopEnd e1 h1 ps1 ln1 col1) /\
    ln = 1 + Z.of_nat (length (filter (fun x => x = newLineRune) (pre ++ [r]))) /\
    (newLineRune ∉ pre ++ [r] -> col = Z.of_nat (length (pre ++ [r]))) /\
    (forall l1 l2, pre ++ [r] = l1 ++ newLineRune :: l2 -> newLineRune ∉ l2 ->
                   col = Z.of_nat (length l2)).
Proof.
  intros HP.
  apply Parse_Some_inv in HP
    as [(_ & _ & _ & ?)|(_ & [(e & Hrun & _ & [= <-])|(e & ps & ln' & col' & _ & _ &
          [(_ & _ & ?)|(_ & ? & _)])])]; try done.
  apply Parse_loop_position in Hrun
    as (pre & rest & e1 & h1 & ps1 & ln1 & col1 & -> & Hpre & Hpos).
  exists pre, rest, e1, h1, ps1, ln1, col1. split; [done|]. split; [done|].
  pose proof (advance_fst (1, 0) (pre ++ [r])) as Hfst.
  rewrite <- Hpos in Hfst. cbn [fst] in Hfst. split; [done|]. split.
  - intros Hno. pose proof (advance_snd_no_newline (1, 0) _ Hno) as Hsnd.
    rewrite <- Hpos in Hsnd. cbn [snd] in Hsnd. lia.
  - intros l1 l2 Heq Hno.
    pose proof (advance_snd_newline (1, 0) l1 l2 Hno) as Hsnd.
    rewrite <- Heq, <- Hpos in Hsnd. done.
Qed.

Lemma error_position_witness :
  let input := runes "(a" ++ [newLineRune] ++ runes " :k )" in
  exists pre rest e1 h1 ps1 ln1 col1,
    input = pre ++ closeParenRune :: rest /\
    Parse_run pre = Some (LoopEnd e1 h1 ps1 ln1 col1) /\
    2 = 1 + Z.of_nat (length (filter (fun x => x = newLineRune)
                                (pre ++ [closeParenRune]))) /\
    (newLineRune ∉ pre ++ [closeParenRune] ->
     5 = Z.of_nat (length (pre ++ [closeParenRune]))) /\
    (forall l1 l2, pre ++ [closeParenRune] = l1 ++ newLineRune :: l2 ->
                   newLineRune ∉ l2 -> 5 = Z.of_nat (length l2)).
Proof.
  intros input.
  apply (error_position input
           [mkNode ElementNode [] ∅ [1%nat]; mkNode ElementNode (runes "a") ∅ []]
           closeParenRune 2 5 (runes "unexpected close paren")).
  vm_compute. reflexivity.
Defined.

(** ** Comments and white space between tokens *)

Lemma Parse_String_exit input :
  input <> [] -> Parse_String input = out ← Parse_run input; exit_String out.
Proof.
  intros Hne. unfold Parse_String, Parse. rewrite decide_False by done.
  destruct (Parse_run input) as [[h err|e h ps ln col]|];
    cbn [mbind option_bind exit_String]; try done.
  destruct (1 <? length (stack ps))%nat; cbn [mbind option_bind]; [done|].
  by destruct (stack ps !! 0%nat).
Qed.

(** The counters do not steer the loop. *)
Lemma Parse_loop_counters input : forall e h ps ln col ln2 col2,
  (out ← Parse_loop input e h ps ln col; exit_String out) =
  (out ← Parse_loop input e h ps ln2 col2; exit_String out).
Proof.
  induction input as [|r rest IH]; intros e h ps ln col ln2 col2; cbn [Parse_loop].
  - done.
  - destruct (call e r h ps) as [[[[e1|] h1] ps1]|]; cbn [mbind option_bind]; [| |done].
    + destruct (r =? newLineRune); apply IH.
    + by destruct (r =? newLineRune).
Qed.

Lemma comment_skipped body : forall h ps ln col,
  newLineRune ∉ body ->
  exists col',
    Parse_loop (body ++ [newLineRune]) EatComment h ps ln col =
      Some (LoopEnd EatAir h ps (ln + 1) col').
Proof.
  induction body as [|r body IH]; intros h ps ln col Hbody; cbn [app Parse_loop call].
  - unfold eatComment. rewrite Z.eqb_refl. cbn. eauto.
  - apply not_elem_of_cons in Hbody as [Hr Hbody]. unfold eatComment.
    rewrite (proj2 (Z.eqb_neq r newLineRune)) by done. cbn [mbind option_bind].
    apply IH, Hbody.
Qed.

Lemma spaces_skipped ws : forall h ps ln col,
  Forall (fun r => unicode_IsSpace r = true) ws ->
  exists ln' col', Parse_loop ws EatAir h ps ln col = Some (LoopEnd EatAir h ps ln' col').
Proof.
  induction ws as [|r ws IH]; intros h ps ln col Hws; cbn [Parse_loop call].
  - eauto.
  - apply Forall_cons in Hws as [Hr Hws].
    assert (eatAir r h ps = Some (Some EatAir, h, ps)) as ->.
    { unfold eatAir. repeat case_rune; subst; try by vm_compute in Hr.
      by rewrite Hr. }
    cbn [mbind option_bind]. destruct (r =? newLineRune); apply IH, Hws.
Qed.

(** Runes that leave eat-idle as they found it do not show in the rendering. *)
Lemma filler_transparent pre filler post h ps ln col ln' col' :
  Parse_run pre = Some (LoopEnd EatAir h ps ln col) ->
  Parse_loop filler EatAir h ps ln col = Some (LoopEnd EatAir h ps ln' col') ->
  Parse_String (pre ++ filler ++ post) = Parse_String (pre ++ post).
Proof.
  intros Hpre Hfiller.
  assert (Hrun : forall l, l <> [] ->
            Parse_String l = out ← Parse_run l; exit_String out)
    by apply Parse_String_exit.
  assert (Hroot : exit_String (LoopEnd EatAir h ps ln col) =
                  exit_String (LoopEnd EatAir h ps ln' col')) by done.
  assert (Hlong : (out ← Parse_run (pre ++ filler ++ post); exit_String out) =
                  (out ← Parse_run (pre ++ post); exit_String out)).
  { rewrite !Parse_run_app, Hpre. cbn [mbind option_bind].
    rewrite Parse_loop_app, Hfiller. cbn [mbind option_bind].
    apply Parse_loop_counters. }
  destruct (decide (pre ++ post = [])) as [Hnil|Hne].
  - apply app_eq_nil in Hnil as [-> ->]. rewrite app_nil_r in *. cbn [app] in *.
    destruct filler as [|r filler]; [done|].
    rewrite Hrun by done. rewrite Hlong. reflexivity.
  - rewrite !Hrun; [exact Hlong|done|].
    intros Hnil. apply Hne. apply app_eq_nil in Hnil as [-> [_ ->]%app_eq_nil]. done.
Qed.

(** X4.  A comment met in eat-idle, from its semicolon to its newline,
    does not change what the input renders to. *)
Theorem comments_are_transparent pre body post h ps ln col :
  Parse_run pre = Some (LoopEnd EatAir h ps ln col) ->
  newLineRune ∉ body ->
  Parse_String (pre ++ (commentStartRune :: body ++ [newLineRune]) ++ post) =
    Parse_String (pre ++ post).
Proof.
  intros Hpre Hbody.
  destruct (comment_skipped body h ps ln (col + 1) Hbody) as [col' Hc].
  eapply filler_transparent; [exact Hpre|].
  cbn [Parse_loop call]. unfold eatAir. cbn. exact Hc.
Qed.

Lemma comments_are_transparent_witness :
  Parse_String (runes "(a " ++ (commentStartRune :: runes " note" ++ [newLineRune])
                  ++ runes "b)") =
    Parse_String (runes "(a " ++ runes "b)").
Proof.
  destruct (Parse_run (runes "(a ")) as [[|e h ps ln col]|] eqn:Hrun;
    [vm_compute in Hrun; discriminate Hrun| |vm_compute in Hrun; discriminate Hrun].
  assert (e = EatAir) as ->
    by (vm_compute in Hrun; injection Hrun as <- _ _ _ _; reflexivity).
  apply (comments_are_transparent _ _ _ _ _ _ _ Hrun).
  intros Hin. repeat (apply elem_of_cons in Hin as [Hin|Hin]; [discriminate Hin|]).
  by apply elem_of_nil in Hin.
Defined.

(** X5.  White space met in eat-idle does not change what the input
    renders to. *)
Theorem spaces_between_tokens_are_transparent pre ws post h ps ln col :
  Parse_run pre = Some (LoopEnd EatAir h ps ln col) ->
  Forall (fun r => unicode_IsSpace r = true) ws ->
  Parse_String (pre ++ ws ++ post) = Parse_String (pre ++ post).
Proof.
  intros Hpre Hws.
  destruct (spaces_skipped ws h ps ln col Hws) as (ln' & col' & Hs).
  eapply filler_transparent; [exact Hpre|exact Hs].
Qed.

Lemma spaces_between_tokens_are_transparent_witness :
  Parse_String (runes "(a " ++ [32; 9; 10] ++ runes "b)") =
    Parse_String (runes "(a " ++ runes "b)").
Proof.
  destruct (Parse_run (runes "(a ")) as [[|e h ps ln col]|] eqn:Hrun;
    [vm_compute in Hrun; discriminate Hrun| |vm_compute in Hrun; discriminate Hrun].
  assert (e = EatAir) as ->
    by (vm_compute in Hrun; injection Hrun as <- _ _ _ _; reflexivity).
  apply (spaces_between_tokens_are_transparent _ _ _ _ _ _ _ Hrun).
  repeat constructor.
Defined.

(** ** Text of quoted literals *)

Lemma htmlEscapeRune_markup_free r : Forall markup_free (htmlEscapeRune r).
Proof.
  rewrite htmlEscapeRune_table.
  repeat case_rune;
    try match goal with
        | |- Forall _ (runes ?s) =>
            let l := eval vm_compute in (runes s) in change (runes s) with l
        end;
    repeat first [apply Forall_nil_2
                 | apply Forall_cons_2; [unfold markup_free; cbn; lia|]].
Qed.

Lemma backslashUnescape_markup_free r :
  Forall markup_free (backslashUnescapeThenHtmlEscape r).
Proof.
  unfold backslashUnescapeThenHtmlEscape.
  repeat case_rune; try apply htmlEscapeRune_markup_free;
    repeat first [apply Forall_nil_2
                 | apply Forall_cons_2; [unfold markup_free; cbn; lia|]].
Qed.

Lemma literal_markup_free body : Forall markup_free (literal body).1.
Proof.
  induction body as [|r body IH] using rev_ind; [constructor|].
  rewrite literal_snoc. unfold lit_step.
  destruct (literal body) as [s b]. cbn [fst snd] in *.
  destruct b; [|case_rune]; cbn [fst];
    auto using Forall_app_2, htmlEscapeRune_markup_free, backslashUnescape_markup_free.
Qed.

(** X6.  The token of a quoted literal never holds a raw [<], [>], ['] or
    double quote; so every string of a parsed tree is a bare token of the
    input or is free of those runes. *)
Theorem quoted_text_is_markup_free (input : gostring) :
  (forall h ps ln col,
     Parse_run input = Some (LoopEnd EatString h ps ln col) ->
     Forall markup_free (token ps)) /\
  (forall h t,
     Parse input = Some (h, Some t, None) ->
     strings_ok (fun s => bare input s \/ Forall markup_free s) h).
Proof.
  split.
  - intros h ps ln col HI%Parse_run_reach.
    destruct (inv_lex _ _ _ _ HI) as (_ & l & body & _ & Hlit).
    pose proof (literal_markup_free body) as Hfree. by rewrite Hlit in Hfree.
  - intros h t
      [(_ & _ & ? & _)|(_ & [(e & _ & ? & _)|(e & ps & ln & col & _ & HI & _)])]%Parse_Some_inv;
      try done.
    eapply strings_ok_impl; [|exact (inv_strings _ _ _ _ HI)].
    intros s [Hb|(l1 & body & l2 & _ & Hlit)]; [by left|right].
    pose proof (literal_markup_free body) as Hfree. by rewrite Hlit in Hfree.
Qed.

Lemma quoted_text_is_markup_free_witness :
  Forall markup_free (runes "a&lt;b").
Proof.
  destruct (quoted_text_is_markup_free (quoteRune :: runes "a<b")) as [Htok _].
  apply (Htok [mkNode ElementNode [] ∅ []]
              (mkParseState contextContent (runes "a&lt;b") [] false [0%nat]) 1 4).
  vm_compute. reflexivity.
Defined.

(** ** The escaping of a literal can be undone *)






(** ** [push] and [pop] *)

(** X8.  Below the cap, [push] succeeds, allocates one empty element that
    becomes the current node, and a [pop] right after it gives back the
    stack, token and key as they were, in the default context. *)
Theorem pop_undoes_push (h : Heap) (ps : ParseState) :
  stack_wf h ps -> (length (stack ps) < 256)%nat ->
  exists h1 ps1,
    push h ps = Some (Some EatSymbol, h1, ps1) /\
    length h1 = S (length h) /\
    currentNode ps1 = Some (length h) /\
    h1 !! length h = Some (mkNode ElementNode [] ∅ []) /\
    pop h1 ps1 = Some (Some EatAir, h1, set_context contextDefault ps).
Proof.
  intros Hst Hlen.
  destruct (stack_wf_current h ps Hst) as (p & n & Hp & Hn & Hlt).
  rewrite (push_cases h ps p n Hp Hn).
  destruct (Nat.leb_spec maxStackDepth (length (stack ps))) as [Hge|_];
    [unfold maxStackDepth in Hge; lia|].
  eexists _, _. split; [reflexivity|]. split_and!.
  - rewrite length_insert, length_app. cbn. lia.
  - unfold currentNode. cbn [stack set_stack set_context]. by rewrite last_snoc.
  - rewrite list_lookup_insert_ne by lia. rewrite lookup_app_r by lia.
    by rewrite Nat.sub_diag.
  - unfold pop. cbn [stack set_stack set_context]. rewrite length_app. cbn [length].
    destruct Hst as ((Hone & _) & _).
    destruct (Nat.ltb_spec 1 (length (stack ps) + 1)); [|lia].
    replace (length (stack ps) + 1 - 1)%nat with (length (stack ps)) by lia.
    rewrite take_app_length. by destruct ps.
Qed.

Lemma pop_undoes_push_witness :
  let ps := mkParseState contextAfterTag [] [] false [0%nat] in
  exists h1 ps1,
    push [mkNode ElementNode [] ∅ []] ps = Some (Some EatSymbol, h1, ps1) /\
    pop h1 ps1 = Some (Some EatAir, h1, set_context contextDefault ps).
Proof.
  intros ps.
  destruct (pop_undoes_push [mkNode ElementNode [] ∅ []] ps)
    as (h1 & ps1 & Hpush & _ & _ & _ & Hpop).
  - unfold stack_wf, maxStackDepth. cbn. split_and!; try lia; [|done].
    repeat constructor.
  - cbn. lia.
  - eauto.
Defined.

(** ** What can fail, and how *)

Lemma push_nil_inv (h h' : Heap) ps ps' :
  push h ps = Some (None, h', ps') -> ps' = set_token (runes "tree too deep") ps.
Proof.
  unfold push, NewNode, error. cbv zeta.
  destruct (_ <=? _)%nat; [by intros [= <- <-]|].
  destruct (currentNode ps) as [p|]; cbn [mbind option_bind]; [|discriminate].
  destruct (modify (Some p) _ _); cbn [mbind option_bind]; discriminate.
Qed.

Lemma pop_nil_inv (h h' : Heap) ps ps' :
  pop h ps = Some (None, h', ps') ->
  ps' = set_token (runes "unexpected closing paren") ps.
Proof.
  unfold pop, error. destruct (_ <? _)%nat; [discriminate|]. by intros [= <- <-].
Qed.

(** A [nil] [eatFn] comes from [ps.error] alone. *)
Lemma call_nil_inv (e : eatFn) (r : rune) (h h' : Heap) (ps ps' : ParseState) :
  call e r h ps = Some (None, h', ps') ->
  token ps' ∈ diagnostics /\ (e = EatAir \/ e = EatSymbol) /\
  (r = openParenRune \/ r = closeParenRune \/ r = keywordStartRune \/ r = escapingRune).
Proof.
  unfold diagnostics.
  destruct e; cbn [call]; unfold eatAir, eatSymbol, eatString, eatComment, error.
  - repeat case_rune; repeat case_decide; try discriminate;
      try (intros [= <- <-]; cbn; split_and!; auto; set_solver).
    + intros ->%push_nil_inv. cbn. split_and!; auto; set_solver.
    + intros ->%pop_nil_inv. cbn. split_and!; auto; set_solver.
    + destruct (unicode_IsSpace r); discriminate.
    + destruct (unicode_IsSpace r); discriminate.
  - repeat case_rune; repeat case_decide; try discriminate;
      try (intros [= <- <-]; cbn; split_and!; auto; set_solver).
    + destruct (commit h ps) as [[h1 ps1]|]; cbn [mbind option_bind]; [|discriminate].
      intros ->%push_nil_inv. cbn. split_and!; auto; set_solver.
    + destruct (commit h ps) as [[h1 ps1]|]; cbn [mbind option_bind]; [|discriminate].
      intros ->%pop_nil_inv. cbn. split_and!; auto; set_solver.
    + destruct (commit h ps) as [[h1 ps1]|]; cbn [mbind option_bind]; [|discriminate].
      case_decide; discriminate.
    + destruct (unicode_IsSpace r); [|discriminate].
      destruct (commit h ps) as [[h1 ps1]|]; cbn [mbind option_bind]; [|discriminate].
      case_decide; discriminate.
  - destruct (escapingBackslash ps); [discriminate|].
    repeat case_rune; try discriminate.
    destruct (commit h ps) as [[h1 ps1]|]; cbn [mbind option_bind]; [|discriminate].
    case_decide; discriminate.
  - case_rune; discriminate.
Qed.

Lemma Parse_loop_return input : forall e h ps ln col h' r ln' col' msg,
  Parse_loop input e h ps ln col = Some (LoopReturn h' (RuneError r ln' col' msg)) ->
  exists pre rest e1 h1 ps1 ln1 col1 ps',
    input = pre ++ r :: rest /\
    Parse_loop pre e h ps ln col = Some (LoopEnd e1 h1 ps1 ln1 col1) /\
    call e1 r h1 ps1 = Some (None, h', ps') /\ msg = token ps'.
Proof.
  induction input as [|x rest IH]; intros e h ps ln col h' r ln' col' msg;
    cbn [Parse_loop]; [discriminate|].
  destruct (call e x h ps) as [[[[e1|] h1] ps1]|] eqn:Hcall;
    cbn [mbind option_bind]; [| |discriminate].
  - assert (Hstep : forall pre,
              Parse_loop (x :: pre) e h ps ln col =
              Parse_loop pre e1 h1 ps1
                (if x =? newLineRune then (ln + 1, 0) else (ln, col + 1)).1
                (if x =? newLineRune then (ln + 1, 0) else (ln, col + 1)).2).
    { intros pre. cbn [Parse_loop]. rewrite Hcall. cbn [mbind option_bind].
      by destruct (x =? newLineRune). }
    destruct (x =? newLineRune); cbn [fst snd] in Hstep; intros Hout;
      apply IH in Hout
        as (pre & rest' & e2 & h2 & ps2 & ln2 & col2 & ps' & -> & Hpre & Hnil & ->);
      exists (x :: pre), rest', e2, h2, ps2, ln2, col2, ps'; by rewrite Hstep.
  - destruct (x =? newLineRune); intros [= <- <- <- <- <-];
      exists [], rest, e, h, ps, ln, col, ps1; done.
Qed.

(** X9.  The message of a rune error is one of the seven diagnostics of
    the package, never text of the input; the rune it reports is an open
    paren, a close paren, a colon or a backslash; and it is rejected by
    [eatAir] or [eatSymbol]: [eatString] and [eatComment] never return the
    [nil] [eatFn], so nothing is rejected inside a quoted literal or a
    comment. *)
Theorem diagnostics_are_fixed (input : gostring) h r ln col msg :
  Parse input = Some (h, None, Some (RuneError r ln col msg)) ->
  msg ∈ diagnostics /\
  (r = openParenRune \/ r = closeParenRune \/ r = keywordStartRune \/ r = escapingRune) /\
  (exists pre rest e1 h1 ps1 ln1 col1,
     input = pre ++ r :: rest /\
     Parse_run pre = Some (LoopEnd e1 h1 ps1 ln1 col1) /\
     (e1 = EatAir \/ e1 = EatSymbol)) /\
  (forall x h0 ps0 h1 ps1,
     call EatString x h0 ps0 <> Some (None, h1, ps1) /\
     call EatComment x h0 ps0 <> Some (None, h1, ps1)).
Proof.
  intros HP.
  apply Parse_Some_inv in HP
    as [(_ & _ & _ & ?)|(_ & [(e & Hrun & _ & [= <-])|(e & ps & ln' & col' & _ & _ &
          [(_ & _ & ?)|(_ & ? & _)])])]; try done.
  apply Parse_loop_return in Hrun
    as (pre & rest & e1 & h1 & ps1 & ln1 & col1 & ps' & -> & Hpre & Hcall & ->).
  apply call_nil_inv in Hcall as (Hmsg & He & Hr).
  split_and!; [done|done|by exists pre, rest, e1, h1, ps1, ln1, col1|].
  intros x h0 ps0 h2 ps2.
  split; intros (_ & [?|?] & _)%call_nil_inv; done.
Qed.

Lemma diagnostics_are_fixed_witness :
  runes "backslash-escaping is not allowed here" ∈ diagnostics /\
  exists pre rest e1 h1 ps1 ln1 col1,
    runes "(a\b)" = pre ++ escapingRune :: rest /\
    Parse_run pre = Some (LoopEnd e1 h1 ps1 ln1 col1) /\
    (e1 = EatAir \/ e1 = EatSymbol).
Proof.
  destruct (diagnostics_are_fixed (runes "(a\b)")
              [mkNode ElementNode [] ∅ [1%nat]; mkNode ElementNode [] ∅ []]
              escapingRune 1 3 (runes "backslash-escaping is not allowed here"))
    as (Hmsg & _ & Hpre & _); [vm_compute; reflexivity|].
  split; [exact Hmsg|exact Hpre].
Defined.

(** ** The shape of a parsed tree *)

Lemma Kinds_insert (h : Heap) ps p n n' :
  Kinds h ps -> h !! p = Some n -> kind n = ElementNode ->
  kind n' = ElementNode -> (p = 0%nat -> tag n' = []) ->
  Kinds (<[p := n']> h) ps.
Proof.
  intros [Hs Ht Hr Hnd Htag] Hn Hk Hk' Hroot.
  pose proof (lookup_lt_Some _ _ _ Hn) as Hlt. split; try done.
  - eapply Forall_impl; [exact Hs|]. cbn. intros q (m & Hm & Hkm).
    destruct (decide (p = q)) as [<-|Hne].
    + exists n'. by rewrite list_lookup_insert_eq.
    + exists m. by rewrite list_lookup_insert_ne.
  - apply Forall_insert; [done|]. intros Htext. by rewrite Hk' in Htext.
  - destruct Hr as (m & Hm & Hkm & Htm). destruct (decide (p = 0%nat)) as [->|Hne].
    + exists n'. rewrite list_lookup_insert_eq by done. auto.
    + exists m. by rewrite list_lookup_insert_ne.
Qed.

Lemma Kinds_alloc (h : Heap) ps k t :
  Kinds h ps -> Kinds (h ++ [mkNode k t ∅ []]) ps.
Proof.
  intros [Hs Ht Hr Hnd Htag]. split; try done.
  - eapply Forall_impl; [exact Hs|]. cbn. intros q (m & Hm & Hkm).
    exists m. split; [by apply lookup_app_l_Some|done].
  - apply Forall_app. split; [done|]. by apply Forall_singleton.
  - destruct Hr as (m & Hm & Hkm). exists m. split; [by apply lookup_app_l_Some|done].
Qed.

Lemma Kinds_state (h : Heap) ps ps' :
  Kinds h ps -> stack ps' = stack ps ->
  (context ps' = contextTag -> context ps = contextTag) -> Kinds h ps'.
Proof.
  intros [Hs Ht Hr Hnd Htag] Hst Hctx. split; rewrite ?Hst; auto.
Qed.

Lemma Kinds_current (h : Heap) ps p :
  stack_wf h ps -> Kinds h ps -> currentNode ps = Some p ->
  (exists n, h !! p = Some n /\ kind n = ElementNode) /\
  (context ps = contextTag -> p <> 0%nat).
Proof.
  intros (Hlen & _ & Hroot) [Hs _ _ Hnd Htag] Hp. unfold currentNode in Hp.
  rewrite last_lookup in Hp. split.
  - rewrite Forall_forall in Hs. apply Hs. by eapply list_elem_of_lookup_2.
  - intros Hc%Htag Hzero. subst p.
    pose proof (NoDup_lookup _ _ _ _ Hnd Hp Hroot) as Heq. lia.
Qed.

Lemma commit_Kinds (h h' : Heap) ps ps' :
  stack_wf h ps -> Kinds h ps -> commit h ps = Some (h', ps') -> Kinds h' ps'.
Proof.
  intros Hst HK Hc.
  destruct (stack_wf_current h ps Hst) as (p & n & Hp & Hn & Hlt).
  destruct (Kinds_current h ps p Hst HK Hp) as [(n0 & Hn0 & Hk) Hne].
  rewrite Hn in Hn0. injection Hn0 as <-.
  rewrite (commit_cases h ps p n Hp Hn) in Hc.
  destruct (kinds_root _ _ HK) as (m & Hm & _ & Htm).
  destruct (context ps) eqn:Hctx; injection Hc as <- <-; try done;
    (apply (Kinds_state _ ps); [|reflexivity|cbn; by rewrite ?Hctx]); try done.
  - apply (Kinds_insert _ _ _ n); try done. intros ->. by destruct Hne.
  - apply (Kinds_insert _ _ _ n); try done. cbn. intros ->. congruence.
  - apply (Kinds_insert _ _ _ n);
      [by apply Kinds_alloc|by apply lookup_app_l_Some|done..|].
    cbn. intros ->. congruence.
Qed.

Lemma push_Kinds (h h' : Heap) ps ps' e :
  stack_wf h ps -> Kinds h ps -> push h ps = Some (Some e, h', ps') -> Kinds h' ps'.
Proof.
  intros Hst HK Hpush.
  destruct (stack_wf_current h ps Hst) as (p & n & Hp & Hn & Hlt).
  destruct (Kinds_current h ps p Hst HK Hp) as [(n0 & Hn0 & Hk) _].
  rewrite Hn in Hn0. injection Hn0 as <-.
  rewrite (push_cases h ps p n Hp Hn) in Hpush.
  destruct (_ <=? _)%nat; [done|]. injection Hpush as <- <- <-.
  assert (HK1 : Kinds (<[p := append_content (length h) n]>
                         (h ++ [mkNode ElementNode [] ∅ []])) ps).
  { eapply Kinds_insert; [by apply Kinds_alloc|by apply lookup_app_l_Some|done..|].
    cbn. intros ->. destruct (kinds_root _ _ HK) as (m & Hm & _ & Htm). congruence. }
  destruct HK1 as [Hs Ht Hr Hnd Htag]. destruct Hst as (Hlen & Hall & _).
  split; cbn [stack context set_stack set_context]; try done.
  - apply Forall_app. split; [done|]. apply Forall_singleton.
    exists (mkNode ElementNode [] ∅ []). split; [|done].
    rewrite list_lookup_insert_ne by lia. rewrite lookup_app_r by lia.
    by rewrite Nat.sub_diag.
  - apply NoDup_app. split_and!; [done| |apply NoDup_singleton].
    intros q Hq ->%list_elem_of_singleton.
    rewrite Forall_forall in Hall. specialize (Hall _ Hq). lia.
  - intros _. rewrite length_app. cbn. lia.
Qed.

Lemma pop_Kinds (h h' : Heap) ps ps' e :
  Kinds h ps -> pop h ps = Some (Some e, h', ps') -> Kinds h' ps'.
Proof.
  intros [Hs Ht Hr Hnd Htag]. unfold pop, error.
  destruct (_ <? _)%nat; [|done]. intros [= <- <- <-].
  split; cbn [stack context set_stack set_context]; try done.
  - by apply Forall_take.
  - apply (sublist_NoDup _ (stack ps)); [done|apply sublist_take].
Qed.

Lemma call_Kinds c e r h ps e' h' ps' :
  Inv c e h ps -> Kinds h ps -> call e r h ps = Some (Some e', h', ps') ->
  Kinds h' ps'.
Proof.
  intros [Hwf Hst Hlex _ _] HK.
  assert (Hcommit : forall h1 ps1, commit h ps = Some (h1, ps1) ->
            stack_wf h1 ps1 /\ Kinds h1 ps1).
  { intros h1 ps1 Hc. split; [|by eapply commit_Kinds].
    by destruct (commit_wf _ _ _ _ Hwf Hst Hc) as (_ & ? & _). }
  assert (Hset : forall h1 ps1 ctx, Kinds h1 ps1 -> ctx <> contextTag ->
            Kinds h1 (set_context ctx ps1)).
  { intros h1 ps1 ctx HK1 Hctx. eapply Kinds_state; [exact HK1|done|]. by cbn. }
  destruct e; cbn [call]; unfold eatAir, eatSymbol, eatString, eatComment, error.
  - repeat case_rune; repeat case_decide; try discriminate;
      try (intros [= <- <- <-]; by auto).
    + by apply push_Kinds.
    + by apply pop_Kinds.
    + destruct (unicode_IsSpace r); intros [= <- <- <-]; [done|].
      apply Hset; [|done]. by eapply Kinds_state.
    + destruct (unicode_IsSpace r); intros [= <- <- <-]; [done|].
      apply Hset; [|done]. by eapply Kinds_state.
  - repeat case_rune; repeat case_decide; try discriminate.
    + destruct (commit h ps) as [[h1 ps1]|] eqn:Hc; cbn [mbind option_bind]; [|done].
      destruct (Hcommit _ _ eq_refl). by apply push_Kinds.
    + destruct (commit h ps) as [[h1 ps1]|] eqn:Hc; cbn [mbind option_bind]; [|done].
      destruct (Hcommit _ _ eq_refl). by apply pop_Kinds.
    + destruct (commit h ps) as [[h1 ps1]|] eqn:Hc; cbn [mbind option_bind]; [|done].
      destruct (Hcommit _ _ eq_refl). case_decide; intros [= <- <- <-]; by auto.
    + destruct (unicode_IsSpace r).
      * destruct (commit h ps) as [[h1 ps1]|] eqn:Hc; cbn [mbind option_bind]; [|done].
        destruct (Hcommit _ _ eq_refl). case_decide; intros [= <- <- <-]; by auto.
      * intros [= <- <- <-]. by eapply Kinds_state.
  - destruct (escapingBackslash ps).
    { intros [= <- <- <-]. by eapply Kinds_state. }
    repeat case_rune.
    + destruct (commit h ps) as [[h1 ps1]|] eqn:Hc; cbn [mbind option_bind]; [|done].
      destruct (Hcommit _ _ eq_refl). case_decide; intros [= <- <- <-]; by auto.
    + intros [= <- <- <-]. by eapply Kinds_state.
    + intros [= <- <- <-]. by eapply Kinds_state.
  - case_rune; by intros [= <- <- <-].
Qed.

Lemma Parse_start_Kinds : Kinds Parse_start.1 Parse_start.2.
Proof.
  split; cbn.
  - apply Forall_singleton. eauto.
  - by apply Forall_singleton.
  - eauto.
  - apply NoDup_singleton.
  - done.
Qed.

Lemma Parse_loop_Kinds input : forall c e h ps ln col e' h' ps' ln' col',
  Inv c e h ps -> Kinds h ps ->
  Parse_loop input e h ps ln col = Some (LoopEnd e' h' ps' ln' col') ->
  Kinds h' ps'.
Proof.
  induction input as [|r rest IH]; intros c e h ps ln col e' h' ps' ln' col' HI HK;
    cbn [Parse_loop].
  - by intros [= <- <- <- <- <-].
  - destruct (call e r h ps) as [[[[e1|] h1] ps1]|] eqn:Hcall;
      cbn [mbind option_bind]; [| |done].
    + pose proof (call_Inv _ _ _ _ _ _ _ _ HI Hcall) as HI'.
      pose proof (call_Kinds _ _ _ _ _ _ _ _ HI HK Hcall) as HK'.
      destruct (r =? newLineRune); by apply (IH _ _ _ _ _ _ _ _ _ _ _ HI' HK').
    + by destruct (r =? newLineRune).
Qed.

(** X10.  The tree a successful [Parse] returns: its root is address 0, an
    element with the empty tag; text nodes have no children and no
    attributes; every child pointer is live and was allocated after its
    parent. *)
Theorem parsed_tree_shape (input : gostring) (h : Heap) (t : ptr) :
  Parse input = Some (h, Some t, None) ->
  t = 0%nat /\
  (exists n, h !! 0%nat = Some n /\ kind n = ElementNode /\ tag n = []) /\
  (forall i n, h !! i = Some n -> kind n = TextNode ->
               content n = [] /\ attr n = ∅) /\
  (forall i n c, h !! i = Some n -> c ∈ content n ->
                 (i < c)%nat /\ is_Some (h !! c)).
Proof.
  intros HP.
  apply Parse_Some_inv in HP
    as [(_ & _ & ? & _)|(_ & [(e & _ & ? & _)|(e & ps & ln & col & Hrun & HI &
          [(_ & ? & _)|(_ & [= ->] & _)])])]; try done.
  pose proof (Parse_loop_Kinds _ _ _ _ _ _ _ _ _ _ _ _ Parse_start_Inv
                Parse_start_Kinds Hrun) as [_ Ht Hr _ _].
  split_and!; [done|done| |].
  - intros i n Hn. rewrite Forall_lookup in Ht. by apply (Ht i n).
  - intros i n c Hn Hc. pose proof (inv_heap _ _ _ _ HI i n Hn) as Hkids.
    rewrite Forall_forall in Hkids. destruct (Hkids c Hc).
    split; [done|]. by apply lookup_lt_is_Some_2.
Qed.

Lemma parsed_tree_shape_witness :
  exists n, [mkNode ElementNode [] ∅ [1%nat]; mkNode ElementNode (runes "a") ∅ [2%nat];
             mkNode TextNode (runes "b") ∅ []] !! 0%nat = Some n /\
            kind n = ElementNode /\ tag n = [].
Proof.
  destruct (parsed_tree_shape (runes "(a b)")
              [mkNode ElementNode [] ∅ [1%nat]; mkNode ElementNode (runes "a") ∅ [2%nat];
               mkNode TextNode (runes "b") ∅ []] 0%nat) as (_ & Hroot & _).
  - vm_compute. reflexivity.
  - exact Hroot.
Defined.

(** ** Rendering is compositional *)

Lemma appendAll_mapM f cs : forall s,
  appendAll f cs s = (fun xs => s ++ concat xs) <$> mapM f cs.
Proof.
  induction cs as [|c cs IH]; intros s; cbn.
  - by rewrite app_nil_r.
  - destruct (f c) as [x|]; cbn; [|done]. rewrite IH.
    destruct (mapM f cs); cbn; [|done]. by rewrite app_assoc.
Qed.

(** X11.  An anonymous element renders as the concatenation of its
    children's renderings; an element with a tag and at least one child
    renders as its opening, [>], the children's renderings and the closing
    tag, whether or not the tag is a degenerate one. *)
Theorem element_rendering_frames_children (fuel : nat) (h : Heap) (p : ptr) (n : Node) :
  h !! p = Some n -> kind n = ElementNode -> tag n = [] \/ content n <> [] ->
  Node_String (S fuel) h (Some p) =
    (fun bodies =>
       if decide (tag n = []) then concat bodies
       else appendAttrs (attr n) (sort_Sort (attrKeys_of (attr n))) (runes "<" ++ tag n)
            ++ runes ">" ++ concat bodies ++ runes "</" ++ tag n ++ runes ">")
    <$> mapM (fun c => Node_String fuel h (Some c)) (content n).
Proof.
  intros Hn Hkind Hshape. cbn [Node_String]. rewrite Hn. cbn [mbind option_bind].
  rewrite Hkind. case_decide as Htag.
  - rewrite appendAll_mapM. by destruct (mapM _ _).
  - destruct Hshape as [?|Hkids]; [done|].
    rewrite decide_False by (by destruct (content n)).
    rewrite appendAll_mapM. destruct (mapM _ _); cbn; [|done].
    by rewrite <- !app_assoc.
Qed.

Lemma element_rendering_frames_children_witness :
  Parse_String (runes "(br x)") = Some (runes "<br>x</br>") /\
  Node_String 2 [mkNode ElementNode (runes "br") ∅ [1%nat];
                 mkNode TextNode (runes "x") ∅ []] (Some 0%nat) =
    Some (runes "<br>x</br>").
Proof.
  split; [vm_compute; reflexivity|].
  rewrite (element_rendering_frames_children 1 _ 0%nat
             (mkNode ElementNode (runes "br") ∅ [1%nat]));
    [reflexivity|reflexivity|reflexivity|right; discriminate].
Defined.

(** ** Reading an attribute *)

Lemma Parse_loop_cons e r h ps e1 h1 ps1 ln col :
  call e r h ps = Some (Some e1, h1, ps1) ->
  exists ln1 col1, forall rest,
    Parse_loop (r :: rest) e h ps ln col = Parse_loop rest e1 h1 ps1 ln1 col1.
Proof.
  intros Hcall. destruct (r =? newLineRune) eqn:Hr; eexists _, _; intros rest;
    cbn [Parse_loop]; rewrite Hcall; cbn [mbind option_bind]; rewrite Hr; reflexivity.
Qed.

Lemma eatSymbol_space sp h ps h1 ps1 :
  unicode_IsSpace sp = true -> commit h ps = Some (h1, ps1) ->
  eatSymbol sp h ps =
    Some (Some EatAir, h1,
          set_context (if decide (context ps1 = contextAttrKey)
                       then contextAfterAttrKey else contextAfterTag) ps1).
Proof.
  intros Hsp Hc.
  destruct (space_not_special sp Hsp)
    as (A1%Z.eqb_neq & A2%Z.eqb_neq & A3%Z.eqb_neq & A4%Z.eqb_neq).
  unfold eatSymbol. rewrite A1, A2, A3, A4, Hsp, Hc. cbn [mbind option_bind].
  by case_decide.
Qed.

(** X12.  In eat-idle after a tag, reading a colon, a key, a space, a bare
    value and a space stores the value under the key in the attributes of
    the current element (replacing an earlier value) and changes nothing
    else of the heap; the parser is back in eat-idle after a tag with empty
    token and key. *)
Theorem attribute_is_stored (k cs : gostring) (c sp1 sp2 : rune)
    (h : Heap) (ps : ParseState) (p : ptr) (n : Node) (ln col : Z) :
  context ps = contextAfterTag -> token ps = [] ->
  currentNode ps = Some p -> h !! p = Some n ->
  Forall (fun r => is_symbol_rune r = true) k ->
  is_symbol_rune c = true -> c <> commentStartRune -> c <> keywordStartRune ->
  Forall (fun r => is_symbol_rune r = true) cs ->
  unicode_IsSpace sp1 = true -> unicode_IsSpace sp2 = true ->
  exists ln' col',
    Parse_loop (keywordStartRune :: k ++ sp1 :: c :: cs ++ [sp2]) EatAir h ps ln col =
      Some (LoopEnd EatAir
              (<[p := mkNode (kind n) (tag n) (<[k := c :: cs]> (attr n)) (content n)]> h)
              (mkParseState contextAfterTag [] [] (escapingBackslash ps) (stack ps))
              ln' col').
Proof.
  intros Hctx Htok Hp Hn Hk Hc Hsemi Hcolon Hcs Hsp1 Hsp2.
  destruct ps as [ctx tok ky esc st]. cbn in Hctx, Htok. subst ctx tok.
  (* the colon *)
  destruct (Parse_loop_cons EatAir keywordStartRune h
              (mkParseState contextAfterTag [] ky esc st)
              EatSymbol h (mkParseState contextAttrKey [] ky esc st) ln col eq_refl)
    as (l1 & c1 & ->).
  (* the key *)
  rewrite Parse_loop_app, (Parse_loop_symbol k _ _ _ _ Hk). cbn [mbind option_bind].
  cbn [token set_token app context key escapingBackslash stack].
  (* the space after the key *)
  assert (Hcommit1 : commit h (mkParseState contextAttrKey k ky esc st) =
            Some (h, mkParseState contextAttrKey [] k esc st)) by reflexivity.
  destruct (Parse_loop_cons EatSymbol sp1 h (mkParseState contextAttrKey k ky esc st)
              EatAir h (mkParseState contextAfterAttrKey [] k esc st)
              l1 (c1 + Z.of_nat (length k))
              (eatSymbol_space sp1 _ _ _ _ Hsp1 Hcommit1))
    as (l2 & c2 & ->).
  (* the value *)
  destruct (Parse_loop_cons EatAir c h (mkParseState contextAfterAttrKey [] k esc st)
              EatSymbol h (mkParseState contextAttrValue [c] k esc st) l2 c2
              (eatAir_default c _ _ Hc Hsemi Hcolon))
    as (l3 & c3 & ->).
  rewrite Parse_loop_app, (Parse_loop_symbol cs _ _ _ _ Hcs). cbn [mbind option_bind].
  cbn [token set_token app context key escapingBackslash stack].
  (* the space after the value *)
  assert (Hcommit : commit h (mkParseState contextAttrValue (c :: cs) k esc st) =
            Some (<[p := set_attr k (c :: cs) n]> h,
                  mkParseState contextAttrValue [] [] esc st)).
  { by rewrite (commit_cases h (mkParseState contextAttrValue (c :: cs) k esc st)
                  p n Hp Hn). }
  destruct (Parse_loop_cons EatSymbol sp2 h
              (mkParseState contextAttrValue (c :: cs) k esc st)
              EatAir (<[p := set_attr k (c :: cs) n]> h)
              (mkParseState contextAfterTag [] [] esc st)
              l3 (c3 + Z.of_nat (length cs))
              (eatSymbol_space sp2 _ _ _ _ Hsp2 Hcommit))
    as (l4 & c4 & ->).
  eexists _, _. reflexivity.
Qed.

Lemma attribute_is_stored_witness :
  let h := [mkNode ElementNode [] ∅ [1%nat];
            mkNode ElementNode (runes "a") (<[runes "k" := runes "old"]> ∅) []] in
  let ps := mkParseState contextAfterTag [] [] false [0%nat; 1%nat] in
  exists ln' col',
    Parse_loop (runes ":k new ") EatAir h ps 1 3 =
      Some (LoopEnd EatAir
              [mkNode ElementNode [] ∅ [1%nat];
               mkNode ElementNode (runes "a") (<[runes "k" := runes "new"]> ∅) []]
              ps ln' col').
Proof.
  intros h ps.
  destruct (attribute_is_stored (runes "k") (runes "ew") 110 32 32 h ps 1%nat
              (mkNode ElementNode (runes "a") (<[runes "k" := runes "old"]> ∅) []) 1 3)
    as (ln' & col' & Hrun); try reflexivity; try discriminate;
    try (by repeat constructor).
  exists ln', col'. refine (eq_trans Hrun _). cbn [kind tag attr content].
  rewrite insert_insert_eq. reflexivity.
Defined.

(** X13.  [TestParse] reports no failure: every case of its table renders
    as wanted. *)
Theorem TestParse_passes : TestParse = [].
Proof. vm_compute. reflexivity. Qed.

(** ** Package static *)

Lemma Parse_render_is_Some (input : gostring) h n :
  Parse input = Some (h, n, None) -> is_Some (Node_String (S (length h)) h n).
Proof.
  intros HP. apply Parse_Some_inv in HP as [(_ & -> & -> & _)|(_ & Hcases)].
  { cbn. eauto. }
  destruct Hcases as [(e & _ & _ & ?)|(e & ps & ln & col & _ & HI & Hend)]; [done|].
  destruct Hend as [(_ & _ & ?)|(_ & -> & _)]; [done|].
  destruct (inv_stack _ _ _ _ HI) as (_ & Hall & Hroot).
  apply Node_String_total; [exact (inv_heap _ _ _ _ HI)| |lia].
  rewrite Forall_forall in Hall. apply Hall. by eapply list_elem_of_lookup_2.
Qed.

Lemma Parse_error_no_tree (input : gostring) h n pe :
  Parse input = Some (h, n, Some pe) -> n = None.
Proof.
  intros HP. apply Parse_Some_inv in HP as [(_ & _ & _ & ?)|(_ & Hcases)]; [done|].
  destruct Hcases as [(e & _ & -> & _)|(e & ps & ln & col & _ & _ & Hend)]; [done|].
  by destruct Hend as [(_ & -> & _)|(_ & _ & ?)].
Qed.

(** The two ways [htlToHTML] returns. *)
Lemma htlToHTML_cases (TypeByExtension : gostring -> gostring) (r : Resource) :
  (exists h pe,
     Parse (Content r) = Some (h, None, Some pe) /\
     htlToHTML TypeByExtension r = Some (r, Some (HtlError pe))) \/
  (exists h n s,
     Parse (Content r) = Some (h, n, None) /\
     Parse_String (Content r) = Some s /\
     htlToHTML TypeByExtension r =
       Some (mkResource (TypeByExtension (runes ".html")) s, None)).
Proof.
  unfold htlToHTML, Parse_String.
  destruct (Parse_is_Some (Content r)) as [[[h n] [pe|]] HP]; rewrite HP;
    cbn [mbind option_bind].
  - left. exists h, pe. by rewrite (Parse_error_no_tree _ _ _ _ HP) in HP |- *.
  - right. destruct (Parse_render_is_Some _ _ _ HP) as [s Hs]. rewrite Hs.
    exists h, n, s. done.
Qed.

(** X14.  [htlToHTML] never panics.  When the content does not parse it
    returns the error of [Parse] and leaves the resource as it was; when it
    parses, there is no error, the content type is that of [.html] and the
    content is the rendering of the old content; an empty content gives an
    empty content and no error.  An error it returns is the error of
    [Parse]. *)
Theorem htlToHTML_result (TypeByExtension : gostring -> gostring) (r : Resource) :
  exists r' err,
    htlToHTML TypeByExtension r = Some (r', err) /\
    (forall h n pe,
       Parse (Content r) = Some (h, n, Some pe) ->
       r' = r /\ err = Some (HtlError pe)) /\
    (forall h n,
       Parse (Content r) = Some (h, n, None) ->
       err = None /\
       ContentType r' = TypeByExtension (runes ".html") /\
       Parse_String (Content r) = Some (Content r')) /\
    (forall e, err = Some e ->
       r' = r /\
       exists h pe, e = HtlError pe /\ Parse (Content r) = Some (h, None, Some pe)) /\
    (err = None ->
       ContentType r' = TypeByExtension (runes ".html") /\
       Parse_String (Content r) = Some (Content r')) /\
    (Content r = [] -> err = None /\ Content r' = []).
Proof.
  destruct (htlToHTML_cases TypeByExtension r)
    as [(h & pe & HP & ->)|(h & n & s & HP & HS & ->)]; eexists _, _;
    (split; [reflexivity|]); split_and!; try done.
  - intros h' n' pe' HP'. rewrite HP in HP'. by simplify_eq.
  - intros h' n' HP'. rewrite HP in HP'. done.
  - intros e [= <-]. eauto.
  - intros Hnil. rewrite Hnil in HP. by vm_compute in HP.
  - intros h' n' pe' HP'. rewrite HP in HP'. done.
  - intros Hnil. rewrite Hnil in HS. vm_compute in HS. by injection HS as <-.
Qed.

(** X15.  [ResourceFromFile] returns a resource exactly when it returns no
    error.  A read error is returned as it is; a file whose extension is
    not [.htl] is returned unchanged with the type of its extension; a
    [.htl] file is returned rendered, with the type of [.html], or not at
    all when it does not parse. *)
Theorem ResourceFromFile_result (ReadFile : gostring -> gostring + gostring)
    (TypeByExtension : gostring -> gostring) (filename : gostring) :
  exists res err,
    ResourceFromFile ReadFile TypeByExtension filename = Some (res, err) /\
    (is_Some res <-> err = None) /\
    (forall e, ReadFile filename = inr e -> res = None /\ err = Some (ReadError e)) /\
    (forall content,
       ReadFile filename = inl content -> filepath_Ext filename <> runes ".htl" ->
       res = Some (mkResource (TypeByExtension (filepath_Ext filename)) content)) /\
    (forall content h pe,
       ReadFile filename = inl content -> filepath_Ext filename = runes ".htl" ->
       Parse content = Some (h, None, Some pe) ->
       res = None /\ err = Some (HtlError pe)) /\
    (forall content h n,
       ReadFile filename = inl content -> filepath_Ext filename = runes ".htl" ->
       Parse content = Some (h, n, None) ->
       exists s, Parse_String content = Some s /\
         res = Some (mkResource (TypeByExtension (runes ".html")) s)).
Proof.
  unfold ResourceFromFile.
  destruct (ReadFile filename) as [content|e] eqn:Hread.
  2:{ eexists _, _. split_and!; try done.
      all: first [by intros ? [= <-] | split; [by intros [? ?]|done]]. }
  cbv zeta. unfold transformers.
  destruct (decide (filepath_Ext filename = runes ".htl")) as [Hext|Hext].
  - rewrite Hext, lookup_singleton_eq.
    destruct (htlToHTML_cases TypeByExtension
                (mkResource (TypeByExtension (runes ".htl")) content))
      as [(h & pe & HP & ->)|(h & n & s & HP & HS & ->)];
      cbn [Content mbind option_bind] in *; eexists _, _;
      (split; [reflexivity|]); split_and!; try done.
    all: first
      [ solve [split; [by intros [? ?]|done]]
      | solve [split; [done|eauto]]
      | solve [intros c h' x [= <-] _ HP'; rewrite HP in HP'; by simplify_eq]
      | solve [intros c h' x [= <-] _ HP'; rewrite HP in HP'; done]
      | solve [intros c h' x [= <-] _ _; eauto] ].
  - rewrite lookup_singleton_ne by done.
    eexists _, _. split_and!; try done.
    all: first [solve [split; [done|eauto]] | solve [by intros c [= <-] _]].
Qed.

Lemma ResourceFromFile_result_witness :
  let ReadFile := fun name : gostring =>
    if decide (name = runes "static/index.htl") then inl (runes "(a b)")
    else if decide (name = runes "static/app.js") then inl (runes "f(x)")
    else inr (runes "no such file") : gostring + gostring in
  let TypeByExtension := fun ext : gostring =>
    if decide (ext = runes ".html") then runes "text/html" else runes "text/javascript" in
  ResourceFromFile ReadFile TypeByExtension (runes "static/index.htl") =
    Some (Some (mkResource (runes "text/html") (runes "<a>b</a>")), None) /\
  ResourceFromFile ReadFile TypeByExtension (runes "static/app.js") =
    Some (Some (mkResource (runes "text/javascript") (runes "f(x)")), None) /\
  ResourceFromFile ReadFile TypeByExtension (runes "static/none") =
    Some (None, Some (ReadError (runes "no such file"))).
Proof.
  intros ReadFile TypeByExtension. split_and!.
  - destruct (ResourceFromFile_result ReadFile TypeByExtension (runes "static/index.htl"))
      as (res & err & -> & Hiff & _ & _ & _ & Hok).
    destruct (Hok (runes "(a b)") _ _ eq_refl eq_refl
                ltac:(vm_compute; reflexivity)) as (s & Hs & ->).
    vm_compute in Hs. injection Hs as <-.
    destruct Hiff as [Hiff _]. by rewrite Hiff by eauto.
  - destruct (ResourceFromFile_result ReadFile TypeByExtension (runes "static/app.js"))
      as (res & err & -> & Hiff & _ & Hplain & _).
    rewrite (Hplain (runes "f(x)") eq_refl) in Hiff |- * by (by vm_compute).
    destruct Hiff as [Hiff _]. by rewrite Hiff by eauto.
  - destruct (ResourceFromFile_result ReadFile TypeByExtension (runes "static/none"))
      as (res & err & -> & _ & Hread & _).
    by destruct (Hread (runes "no such file") eq_refl) as [-> ->].
Defined.

Lemma htlToHTML_result_witness :
  htlToHTML (fun _ => runes "text/html") (mkResource (runes "text/plain") []) =
    Some (mkResource (runes "text/html") [], None) /\
  htlToHTML (fun _ => runes "text/html") (mkResource (runes "text/plain") (runes "(a")) =
    Some (mkResource (runes "text/plain") (runes "(a"), Some (HtlError (StackError 1))) /\
  htlToHTML (fun _ => runes "text/html") (mkResource (runes "text/plain") (runes "(a b)")) =
    Some (mkResource (runes "text/html") (runes "<a>b</a>"), None).
Proof.
  split_and!.
  - destruct (htlToHTML_result (fun _ => runes "text/html")
                (mkResource (runes "text/plain") []))
      as (r' & err & -> & _ & _ & _ & Hok & Hnil).
    destruct (Hnil eq_refl) as [-> Hc]. destruct (Hok eq_refl) as [Ht _].
    destruct r'. cbn in *. by subst.
  - destruct (htlToHTML_result (fun _ => runes "text/html")
                (mkResource (runes "text/plain") (runes "(a")))
      as (r' & err & -> & Herr & _).
    by destruct (Herr [mkNode ElementNode [] ∅ [1%nat]; mkNode ElementNode [] ∅ []]
                   None (StackError 1) ltac:(vm_compute; reflexivity)) as [-> ->].
  - destruct (htlToHTML_result (fun _ => runes "text/html")
                (mkResource (runes "text/plain") (runes "(a b)")))
      as (r' & err & -> & _ & Hok & _).
    destruct (Hok [mkNode ElementNode [] ∅ [1%nat];
                   mkNode ElementNode (runes "a") ∅ [2%nat];
                   mkNode TextNode (runes "b") ∅ []] (Some 0%nat)
                ltac:(vm_compute; reflexivity)) as (-> & Ht & Hs).
    vm_compute in Hs. injection Hs as Hs. destruct r'. cbn in *. by subst.
Defined.

(** ** The end of the input *)

(** X16.  A rune error is final: once [Parse] fails on an input with a rune
    error, it fails with the same error, at the same position, on every
    input that extends it. *)
Theorem rune_errors_are_final (pre rest : gostring) h r ln col msg :
  Parse pre = Some (h, None, Some (RuneError r ln col msg)) ->
  Parse (pre ++ rest) = Some (h, None, Some (RuneError r ln col msg)).
Proof.
  intros HP. apply Parse_Some_inv in HP as [(_ & _ & _ & ?)|(Hne & Hcases)]; [done|].
  destruct Hcases as [(e & Hrun & _ & [= <-])|(e & ps & ln' & col' & _ & _ & Hend)].
  - unfold Parse. rewrite decide_False by (by destruct pre).
    by rewrite Parse_run_app, Hrun.
  - by destruct Hend as [(_ & _ & ?)|(_ & ? & _)].
Qed.

Lemma rune_errors_are_final_witness :
  exists h,
    Parse (runes "(a))" ++ runes " (b)") =
      Some (h, None, Some (RuneError closeParenRune 1 4 (runes "unexpected closing paren"))).
Proof.
  eexists. apply (rune_errors_are_final (runes "(a))") (runes " (b)")).
  vm_compute. reflexivity.
Defined.

Lemma comment_unterminated body : forall h ps ln col,
  newLineRune ∉ body ->
  exists col',
    Parse_loop body EatComment h ps ln col = Some (LoopEnd EatComment h ps ln col').
Proof.
  induction body as [|r body IH]; intros h ps ln col Hbody; cbn [Parse_loop call].
  - eauto.
  - apply not_elem_of_cons in Hbody as [Hr Hbody]. unfold eatComment.
    rewrite (proj2 (Z.eqb_neq r newLineRune)) by done. cbn [mbind option_bind].
    apply IH, Hbody.
Qed.

(** X17.  A comment need not end: a comment that starts in eat-idle and runs
    to the end of the input without a newline does not change what the
    input renders to. *)
Theorem trailing_comment_is_ignored pre body h ps ln col :
  Parse_run pre = Some (LoopEnd EatAir h ps ln col) ->
  newLineRune ∉ body ->
  Parse_String (pre ++ commentStartRune :: body) = Parse_String pre.
Proof.
  intros Hpre Hbody.
  destruct (comment_unterminated body h ps ln (col + 1) Hbody) as [col' Hc].
  assert (Hlong : (out ← Parse_run (pre ++ commentStartRune :: body); exit_String out) =
                  (out ← Parse_run pre; exit_String out)).
  { rewrite Parse_run_app, Hpre. cbn [mbind option_bind].
    cbn [Parse_loop call]. unfold eatAir. cbn. by rewrite Hc. }
  rewrite Parse_String_exit by (by destruct pre).
  destruct pre as [|x pre]; [|by rewrite Parse_String_exit].
  rewrite Hlong. reflexivity.
Qed.

Lemma trailing_comment_is_ignored_witness :
  Parse_String (runes "(a b) " ++ commentStartRune :: runes " done") =
    Parse_String (runes "(a b) ").
Proof.
  destruct (Parse_run (runes "(a b) ")) as [[|e h ps ln col]|] eqn:Hrun;
    [vm_compute in Hrun; discriminate Hrun| |vm_compute in Hrun; discriminate Hrun].
  assert (e = EatAir) as ->
    by (vm_compute in Hrun; injection Hrun as <- _ _ _ _; reflexivity).
  apply (trailing_comment_is_ignored _ _ _ _ _ _ Hrun).
  intros Hin. repeat (apply elem_of_cons in Hin as [Hin|Hin]; [discriminate Hin|]).
  by apply elem_of_nil in Hin.
Defined.
